(** * youtube-rag-assistant: chunker, index store, conversation memory, ask

    A shallow embedding of [utils/chunker.py], [utils/embedder.py] and
    [utils/rag_pipeline.py], and the properties of the specification that
    concern them.

    Conventions.
    - Python [str] is [string]; the characters are read as ASCII, and the
      whitespace class is the one of [str.isspace] on that range.
    - A finite Python [float] is an exact rational, so [start] is a [Q];
      [int(float(x))] is truncation toward zero.
    - Python [int] is [Z]; list indices that never go below zero are [nat].
    - A [while] loop is run by [while_loop] with an explicit bound on the
      number of tests of its condition; [None] means the bound was reached. *)

From Stdlib Require Import ZArith QArith Qround List String Ascii Bool Lia.
From Stdlib Require Import DecimalString DecimalNat.
From stdpp Require Import base option list gmap sets strings.

Local Open Scope string_scope.
Local Open Scope list_scope.
Local Open Scope nat_scope.

(* ===================================================================== *)
(** ** Python string operations *)
(* ===================================================================== *)

(** [str.isspace] on one ASCII character: TAB, LF, VT, FF, CR, the four
    separators FS GS RS US, and the space. *)
Definition is_space (c : ascii) : bool :=
  let n := nat_of_ascii c in
  ((9 <=? n) && (n <=? 13)) || ((28 <=? n) && (n <=? 32)).

(** Truth value of a string: only the empty string is false. *)
Definition truthy (s : string) : bool :=
  match s with
  | EmptyString => false
  | String _ _ => true
  end.

Fixpoint lstrip_chars (l : list ascii) : list ascii :=
  match l with
  | [] => []
  | c :: l' => if is_space c then lstrip_chars l' else l
  end.

Definition rstrip_chars (l : list ascii) : list ascii :=
  rev (lstrip_chars (rev l)).

(** [s.strip()] *)
Definition strip (s : string) : string :=
  string_of_list_ascii (rstrip_chars (lstrip_chars (list_ascii_of_string s))).

(** [s.split()]: the maximal runs of non-whitespace characters. [cur] holds
    the run being read, last character first. *)
Fixpoint split_chars (cur : list ascii) (l : list ascii) : list string :=
  match l with
  | [] =>
      match cur with
      | [] => []
      | _ => [string_of_list_ascii (rev cur)]
      end
  | c :: l' =>
      if is_space c then
        match cur with
        | [] => split_chars [] l'
        | _ => string_of_list_ascii (rev cur) :: split_chars [] l'
        end
      else split_chars (c :: cur) l'
  end.

Definition split (s : string) : list string :=
  split_chars [] (list_ascii_of_string s).

(** [sep.join(parts)] *)
Definition join (sep : string) (parts : list string) : string :=
  String.concat sep parts.

(** [a or b] on strings that may be missing ([None]). *)
Definition or_else (a : option string) (b : string) : string :=
  match a with
  | Some s => if truthy s then s else b
  | None => b
  end.

(** [int(float(x))] for a finite [x]: the integer part, toward zero. *)
Definition int_of_float (x : Q) : Z :=
  Z.quot (Qnum x) (Z.pos (Qden x)).

(* ===================================================================== *)
(** ** Bounded loops *)
(* ===================================================================== *)

(** [while cond(s): s = body(s)], with at most [fuel] tests of [cond]. *)
Fixpoint while_loop {St : Type} (fuel : nat) (cond : St -> bool)
    (body : St -> St) (s : St) : option St :=
  match fuel with
  | O => None
  | S fuel' => if cond s then while_loop fuel' cond body (body s) else Some s
  end.

(* ===================================================================== *)
(** ** Data model *)
(* ===================================================================== *)

Record TranscriptSegment := {
  text : string;
  start : Q;
  duration : Q
}.

(** The dictionary [build_chunks] receives. The three identity fields are
    read with [.get(...) or default], so they may be missing. *)
Record TranscriptResult := {
  tr_video_id : option string;
  tr_title : option string;
  tr_url : option string;
  tr_segments : list TranscriptSegment
}.

Record Metadata := {
  video_id : string;
  video_title : string;
  start_time : Z;
  url : string
}.

Record Document := {
  page_content : string;
  metadata : Metadata
}.

(* ===================================================================== *)
(** ** utils/chunker.py *)
(* ===================================================================== *)

(** [_word_count] *)
Definition _word_count (t : string) : nat :=
  if truthy t then length (split t) else 0.

(** [(seg.get("text") or "").strip()] *)
Definition seg_text (seg : TranscriptSegment) : string := strip (text seg).

Section Chunker.

Variable segments : list TranscriptSegment.
Variables target_words overlap_words : Z.
Variables (vid vtitle vurl : string).

(** State of the inner loop: [i], [chunk_segments], [word_count]. *)
Definition scan_state : Type := nat * list TranscriptSegment * Z.

Definition scan_cond (st : scan_state) : bool :=
  let '(i, chunk_segments, word_count) := st in
  (i + length chunk_segments <? length segments)
  && (word_count <? target_words)%Z.

Definition scan_body (st : scan_state) : scan_state :=
  let '(i, chunk_segments, word_count) := st in
  match segments !! (i + length chunk_segments) with
  | None => st
  | Some seg =>
      let t := seg_text seg in
      if truthy t
      then (i, chunk_segments ++ [seg], (word_count + Z.of_nat (_word_count t))%Z)
      else (i + 1, chunk_segments, word_count)
  end.

(** State of the backward walk: [overlap_start], [overlap_count]. *)
Definition overlap_state : Type := Z * Z.

Definition overlap_cond (st : overlap_state) : bool :=
  let '(overlap_start, overlap_count) := st in
  (0 <=? overlap_start)%Z && (overlap_count <? overlap_words)%Z.

Definition overlap_body (chunk_segments : list TranscriptSegment)
    (st : overlap_state) : overlap_state :=
  let '(overlap_start, overlap_count) := st in
  match chunk_segments !! Z.to_nat overlap_start with
  | None => st
  | Some seg =>
      ((overlap_start - 1)%Z,
       (overlap_count + Z.of_nat (_word_count (seg_text seg)))%Z)
  end.

(** The [Document] appended for one chunk. *)
Definition make_document (chunk_segments : list TranscriptSegment) : Document :=
  {| page_content := strip (join " " (map seg_text chunk_segments));
     metadata :=
       {| video_id := vid;
          video_title := vtitle;
          start_time :=
            match chunk_segments with
            | seg :: _ => int_of_float (start seg)
            | [] => 0%Z
            end;
          url := vurl |} |}.

(** [i += overlap_start if overlap_start > 0 else max(len(chunk_segments) - 1, 1)] *)
Definition advance (chunk_segments : list TranscriptSegment) (overlap_start : Z) : nat :=
  if (0 <? overlap_start)%Z then Z.to_nat overlap_start
  else Nat.max (length chunk_segments - 1) 1.

(** How one pass of the outer loop ends: at its bottom ([Next], with the
    new [i] and [documents]) or at [break]. *)
Inductive flow : Type :=
| Next (i : nat) (documents : list Document)
| Break (documents : list Document).

(** One pass of the outer loop body; [gas] bounds each of its two loops. *)
Definition chunk_body (gas : nat) (i : nat) (documents : list Document)
    : option flow :=
  '(i, chunk_segments, _) ← while_loop gas scan_cond scan_body (i, [], 0%Z);
  match chunk_segments with
  | [] => Some (Break documents)
  | _ :: _ =>
      let documents := documents ++ [make_document chunk_segments] in
      '(overlap_start, _) ←
        while_loop gas overlap_cond (overlap_body chunk_segments)
          ((Z.of_nat (length chunk_segments) - 1)%Z, 0%Z);
      let overlap_start := (overlap_start + 1)%Z in
      Some (Next (i + advance chunk_segments overlap_start) documents)
  end.

(** The outer loop, with at most [fuel] tests of [i < len(segments)]. *)
Fixpoint chunk_loop (gas fuel : nat) (i : nat) (documents : list Document)
    : option (list Document) :=
  match fuel with
  | O => None
  | S fuel' =>
      if i <? length segments then
        r ← chunk_body gas i documents;
        match r with
        | Break documents => Some documents
        | Next i documents => chunk_loop gas fuel' i documents
        end
      else Some documents
  end.

(** *** The two inner loops as recursions over what is left to read

    [take_chunk rest st] is the inner loop started in state [st] with
    [rest] the segments from index [i + len(chunk_segments)] on;
    [walk_back r st] is the backward walk with [r] the chunk segments
    from index [overlap_start] down to the first. [scan_loop_eq] and
    [overlap_loop_eq] relate them to the loops. *)

Definition weight (seg : TranscriptSegment) : Z :=
  Z.of_nat (_word_count (seg_text seg)).

Fixpoint take_chunk (rest : list TranscriptSegment) (st : scan_state) : scan_state :=
  match rest with
  | [] => st
  | seg :: rest' =>
      let '(i, chunk_segments, word_count) := st in
      if (word_count <? target_words)%Z then
        take_chunk rest'
          (if truthy (seg_text seg)
           then (i, chunk_segments ++ [seg], (word_count + weight seg)%Z)
           else (i + 1, chunk_segments, word_count))
      else st
  end.

Fixpoint walk_back (r : list TranscriptSegment) (st : overlap_state) : overlap_state :=
  match r with
  | [] => st
  | seg :: r' =>
      let '(overlap_start, overlap_count) := st in
      if (overlap_count <? overlap_words)%Z then
        walk_back r' ((overlap_start - 1)%Z, (overlap_count + weight seg)%Z)
      else st
  end.

(** [overlap_start] after the walk and the [+= 1] that follows it. *)
Definition overlap_end (chunk_segments : list TranscriptSegment) : Z :=
  (fst (walk_back (rev chunk_segments)
          ((Z.of_nat (length chunk_segments) - 1)%Z, 0%Z)) + 1)%Z.

(** The number of segments the inner loop leaves unread. *)
Fixpoint unread (word_count : Z) (rest : list TranscriptSegment) : nat :=
  match rest with
  | [] => 0
  | seg :: rest' =>
      if (word_count <? target_words)%Z
      then unread (word_count + weight seg)%Z rest'
      else length rest
  end.

(** The number of segments without text the inner loop steps over. *)
Fixpoint skipped (word_count : Z) (rest : list TranscriptSegment) : nat :=
  match rest with
  | [] => 0
  | seg :: rest' =>
      if (word_count <? target_words)%Z
      then (if truthy (seg_text seg) then 0 else 1)
           + skipped (word_count + weight seg)%Z rest'
      else 0
  end.

(** One pass of the outer loop in terms of [take_chunk] and
    [overlap_end] ([chunk_body_eq]). *)
Definition pass (i : nat) (documents : list Document) : flow :=
  let '(i1, chunk_segments, _) := take_chunk (drop i segments) (i, [], 0%Z) in
  match chunk_segments with
  | [] => Break documents
  | _ :: _ =>
      Next (i1 + advance chunk_segments (overlap_end chunk_segments))
           (documents ++ [make_document chunk_segments])
  end.

(** A document of the output: built from a non-empty run of segments of
    the input, all with text. *)
Definition produced (d : Document) : Prop :=
  exists first others,
    d = make_document (first :: others)
    /\ In first segments /\ truthy (seg_text first) = true
    /\ Forall (fun seg => In seg segments /\ truthy (seg_text seg) = true) others.

End Chunker.

(** [build_chunks], with a bound on the loops. *)
Definition build_chunks_fuel (fuel : nat) (transcript : TranscriptResult)
    (target_words overlap_words : Z) : option (list Document) :=
  let video_id := or_else (tr_video_id transcript) "" in
  let video_title := or_else (tr_title transcript) "Untitled video" in
  let url := or_else (tr_url transcript) "" in
  let segments := tr_segments transcript in
  match segments with
  | [] => Some []
  | _ :: _ =>
      chunk_loop segments target_words overlap_words video_id video_title url
        fuel fuel 0 []
  end.

(** [build_chunks]: the bound [len(segments) + 1] is enough for every loop
    (see [build_chunks_fuel_enough]). *)
Definition build_chunks (transcript : TranscriptResult)
    (target_words overlap_words : Z) : list Document :=
  default [] (build_chunks_fuel (S (length (tr_segments transcript)))
                transcript target_words overlap_words).

(** Concrete inputs for the examples: the scenario of the specification. *)
Definition mk_seg (t : string) (s : Q) : TranscriptSegment :=
  {| text := t; start := s; duration := 1%Q |}.

Definition transcript_of (segs : list TranscriptSegment) : TranscriptResult :=
  {| tr_video_id := Some "jNQXAC9IVRw";
     tr_title := Some "Me at the zoo";
     tr_url := Some "https://www.youtube.com/watch?v=jNQXAC9IVRw";
     tr_segments := segs |}.

Definition elephants : TranscriptResult :=
  transcript_of
    [ mk_seg "elephants have trunks" 0%Q;
      mk_seg "trunks are strong" 5%Q;
      mk_seg "they can lift heavy things" 12%Q ].

(** A transcript whose only segment starts half a second before zero. *)
Definition before_zero : TranscriptResult :=
  transcript_of [ mk_seg "welcome back" (-1 # 2)%Q ].

(** A two-word segment followed by four one-word segments. *)
Definition six_words : TranscriptResult :=
  transcript_of
    [ mk_seg "elephants have" 0%Q; mk_seg "trunks" 2%Q; mk_seg "that" 3%Q;
      mk_seg "are" 4%Q; mk_seg "strong" 5%Q ].


(** Two segments, neither with text. *)
Definition silent : TranscriptResult :=
  transcript_of [ mk_seg "   " 0%Q; mk_seg "" 3%Q ].

(** [d] is anchored at the first of the segments it was built from:
    segments of the transcript with text, [first] before [others], whose
    trimmed texts make up the page content and whose first start, cut to
    whole seconds toward zero, is [start_time]. *)
Definition starts_at_first_segment (transcript : TranscriptResult) (d : Document)
    : Prop :=
  exists first others,
    In first (tr_segments transcript)
    /\ truthy (seg_text first) = true
    /\ Forall (fun seg => In seg (tr_segments transcript)) others
    /\ page_content d = strip (join " " (map seg_text (first :: others)))
    /\ start_time (metadata d) = int_of_float (start first)
    /\ ((0 <= start first)%Q -> start_time (metadata d) = Qfloor (start first)).

(* ===================================================================== *)
(** ** Results of calls that may raise *)
(* ===================================================================== *)

(** A call either returns or raises an [Exception]; [kind] is
    [type(exc).__name__] and [msg] is [str(exc)]. *)
Inductive outcome (A : Type) : Type :=
| Returned (a : A)
| Raised (kind msg : string).

Arguments Returned {A} a.
Arguments Raised {A} kind msg.

(* ===================================================================== *)
(** ** utils/embedder.py *)
(* ===================================================================== *)

(** The Chroma collection is the list of the documents written to it, in
    the order written. [lookup_raises vid] tells whether
    [vectordb.get(where={"video_id": vid})] raises. *)
Record index_env := {
  embed_api_key : string;
  lookup_raises : string -> bool
}.

(** [result and result.get("ids")] for [vectordb.get(where={"video_id": vid})]:
    some stored entry carries exactly this [video_id]. *)
Definition has_entries (db : list Document) (v : string) : bool :=
  existsb (fun d => String.eqb (video_id (metadata d)) v) db.

(** [str(doc.metadata.get("video_id", "")).strip()] *)
Definition doc_vid (doc : Document) : string :=
  strip (video_id (metadata doc)).

(** The set comprehension at the head of [index_documents]. *)
Definition batch_video_ids (documents : list Document) : gset string :=
  list_to_set
    (map doc_vid (List.filter (fun doc => truthy (video_id (metadata doc))) documents)).

(** The [for vid in video_ids] loop inside [try]; a raising lookup leaves
    the loop with the ids found so far. *)
Fixpoint scan_existing (env : index_env) (db : list Document)
    (vids : list string) (existing_video_ids : gset string) : gset string :=
  match vids with
  | [] => existing_video_ids
  | v :: rest =>
      if truthy v then
        if lookup_raises env v then existing_video_ids
        else if has_entries db v
             then scan_existing env db rest ({[ v ]} ∪ existing_video_ids)
             else scan_existing env db rest existing_video_ids
      else scan_existing env db rest existing_video_ids
  end.

(** [index_documents]: the collection after the call, or the exception of
    [_get_embeddings]. The iteration order of the Python set is the one of
    [elements]. *)
Definition index_documents (env : index_env) (documents : list Document)
    (db : list Document) : outcome (list Document) :=
  match documents with
  | [] => Returned db
  | _ :: _ =>
      if truthy (strip (embed_api_key env)) then
        let video_ids := batch_video_ids documents in
        if decide (video_ids = ∅) then Returned (db ++ documents)
        else
          let existing_video_ids := scan_existing env db (elements video_ids) ∅ in
          let videos_to_index := video_ids ∖ existing_video_ids in
          if decide (videos_to_index = ∅) then Returned db
          else
            let docs_to_add :=
              List.filter (fun doc => bool_decide (doc_vid doc ∈ videos_to_index))
                documents in
            match docs_to_add with
            | [] => Returned db
            | _ :: _ => Returned (db ++ docs_to_add)
            end
      else
        Raised "RuntimeError"
          "Missing OPENAI_API_KEY. Add it to your .env file and restart the app."
  end.

(** A chunk that names its video: the [video_id] is not empty and has no
    whitespace at either end. *)
Definition identified (doc : Document) : bool :=
  truthy (video_id (metadata doc))
  && String.eqb (strip (video_id (metadata doc))) (video_id (metadata doc)).

(** Whether the collection lacks the video of [doc]. *)
Definition is_new (db : list Document) (doc : Document) : bool :=
  negb (has_entries db (video_id (metadata doc))).

(** Concrete inputs for the examples. *)
Definition chunk_of (v content : string) : Document :=
  {| page_content := content;
     metadata := {| video_id := v; video_title := "Untitled video";
                    start_time := 0; url := "" |} |}.

Definition store_up : index_env :=
  {| embed_api_key := "sk-test"; lookup_raises := fun _ => false |}.

(* ===================================================================== *)
(** ** utils/rag_pipeline.py *)
(* ===================================================================== *)

Definition newline : string := String (ascii_of_nat 10) EmptyString.

(** [sid = (session_id or "").strip() or "default"] *)
Definition session_key (session_id : string) : string :=
  let s := strip session_id in
  if truthy s then s else "default".

(** [exchanges[-5:]] *)
Definition last5 {A : Type} (exchanges : list A) : list A :=
  skipn (length exchanges - 5) exchanges.

(** The lines built by the [for q, a in exchanges] loop. *)
Definition history_lines (exchanges : list (string * string)) : list string :=
  flat_map (fun '(q, a) => ["Human: " +:+ q; "Assistant: " +:+ a]) exchanges.

(** [_MEMORY_STORE.get(sid, [])] *)
Definition stored (store : gmap string (list (string * string))) (sid : string)
    : list (string * string) :=
  default [] (store !! sid).

(** [_get_history] *)
Definition _get_history (store : gmap string (list (string * string)))
    (session_id : string) : string :=
  let sid := session_key session_id in
  let exchanges := stored store sid in
  let exchanges := last5 exchanges in
  match exchanges with
  | [] => ""
  | _ :: _ => join newline (history_lines exchanges)
  end.

(** [_save_history] *)
Definition _save_history (store : gmap string (list (string * string)))
    (session_id question answer : string) : gmap string (list (string * string)) :=
  let sid := session_key session_id in
  let store :=
    match store !! sid with
    | None => <[ sid := [] ]> store
    | Some _ => store
    end in
  <[ sid := stored store sid ++ [(question, answer)] ]> store.

(** What [ask] does to the outside world. *)
Inductive event :=
| BuildChain
| IndexQuery (question : string)
| ModelCall (chat_history question : string) (context : list Document).

(** The process state [ask] runs in. *)
Record world := {
  _MEMORY_STORE : gmap string (list (string * string));
  OPENAI_API_KEY : string;
  calls : list event
}.

(** The collaborators of the chain: opening the retriever and the model
    client, the retriever query, and the prompt and model call. Each may
    raise. Rendering the prompt ([_format_docs] and the template) is part
    of [generate]. *)
Record services := {
  build : outcome unit;
  retrieve : string -> outcome (list Document);
  generate : string -> string -> list Document -> outcome string
}.

Definition record_call (e : event) (w : world) : world :=
  {| _MEMORY_STORE := _MEMORY_STORE w;
     OPENAI_API_KEY := OPENAI_API_KEY w;
     calls := calls w ++ [e] |}.

Definition set_memory (m : gmap string (list (string * string))) (w : world) : world :=
  {| _MEMORY_STORE := m;
     OPENAI_API_KEY := OPENAI_API_KEY w;
     calls := calls w |}.

(** [rag_chain.invoke({"question": q, "chat_history": chat_history})]:
    retrieve on the question, then prompt and model. *)
Definition invoke (sv : services) (q chat_history : string) (w : world)
    : outcome string * world :=
  let w := record_call (IndexQuery q) w in
  match retrieve sv q with
  | Raised kind msg => (Raised kind msg, w)
  | Returned docs =>
      (generate sv chat_history q docs, record_call (ModelCall chat_history q docs) w)
  end.

Definition error_answer (kind msg : string) : string :=
  "Sorry — I ran into an error while answering that. ("
    +:+ kind +:+ ": " +:+ msg +:+ ")".

(** [ask]. [_build_rag_chain()] is called before the [try], so what it
    raises leaves [ask]; what [invoke] raises is caught. *)
Definition ask (sv : services) (question session_id : string) (w : world)
    : outcome string * world :=
  let q := strip question in
  if truthy q then
    let api_key := strip (OPENAI_API_KEY w) in
    if truthy api_key then
      let chat_history := _get_history (_MEMORY_STORE w) session_id in
      let w := record_call BuildChain w in
      match build sv with
      | Raised kind msg => (Raised kind msg, w)
      | Returned _ =>
          match invoke sv q chat_history w with
          | (Returned answer, w) =>
              (Returned answer,
               set_memory (_save_history (_MEMORY_STORE w) session_id q answer) w)
          | (Raised kind msg, w) => (Returned (error_answer kind msg), w)
          end
      end
    else
      (Returned "Missing OPENAI_API_KEY. Add it to your .env file and restart the app.", w)
  else (Returned "Please enter a question.", w).

(** A string of whitespace only (possibly empty). *)
Definition all_space (s : string) : bool :=
  forallb is_space (list_ascii_of_string s).

(** The text [_get_history] returns for the exchanges it keeps. *)
Definition render_history (exchanges : list (string * string)) : string :=
  match exchanges with
  | [] => ""
  | _ :: _ => join newline (history_lines exchanges)
  end.


(** Concrete collaborators and states for the examples. *)
Definition answering : services :=
  {| build := Returned tt;
     retrieve := fun _ => Returned [];
     generate := fun _ _ _ => Returned "Elephants have trunks [00:00](https://www.youtube.com/watch?v=jNQXAC9IVRw&t=0)." |}.

Definition retriever_down : services :=
  {| build := Returned tt;
     retrieve := fun _ => Raised "ConnectionError" "index unreachable";
     generate := fun _ _ _ => Returned "unused" |}.

Definition fresh_world : world :=
  {| _MEMORY_STORE := ∅; OPENAI_API_KEY := "sk-test"; calls := [] |}.



(* ===================================================================== *)
(** ** Notions used to state further properties *)
(* ===================================================================== *)

(** The text of [seg] is part of the content of [d]: the content is the
    trimmed join of the trimmed texts of a run of segments that holds
    [seg]. *)
Definition covers (d : Document) (seg : TranscriptSegment) : Prop :=
  exists before after,
    page_content d = strip (join " " (map seg_text (before ++ seg :: after))).

(** Silence, then speech. *)
Definition late_speech : TranscriptResult :=
  transcript_of
    [ mk_seg "  " 0%Q; mk_seg "" 2%Q; mk_seg "hello there" (7 # 2)%Q;
      mk_seg "general" 6%Q ].

(** A transcript without identity fields. *)
Definition anonymous : TranscriptResult :=
  {| tr_video_id := None; tr_title := Some ""; tr_url := None;
     tr_segments := [ mk_seg "elephants have trunks" 0%Q ] |}.

(** The words of a run of segments. *)
Definition words_of (chunk_segments : list TranscriptSegment) : Z :=
  fold_right (fun seg acc => (weight seg + acc)%Z) 0%Z chunk_segments.

(** The words of the contents of a list of documents. *)
Definition total_words (documents : list Document) : Z :=
  fold_right (fun d acc => (Z.of_nat (_word_count (page_content d)) + acc)%Z)
    0%Z documents.

(** Whether [index_documents] writes [doc] of the batch [documents] when
    every lookup answers: everything for a batch without ids, and
    otherwise the documents whose trimmed id is in the batch's id set and
    is empty or unknown to the collection. *)
Definition writes (db documents : list Document) (doc : Document) : bool :=
  if decide (batch_video_ids documents = ∅) then true
  else bool_decide (doc_vid doc ∈ batch_video_ids documents)
       && negb (truthy (doc_vid doc) && has_entries db (doc_vid doc)).

(** A store that cannot be reached: every lookup raises. *)
Definition store_down : index_env :=
  {| embed_api_key := "sk-test"; lookup_raises := fun _ => true |}.

Definition zoo_batch : list Document :=
  [ chunk_of "jNQXAC9IVRw" "elephants have trunks";
    chunk_of "jNQXAC9IVRw" "trunks are strong" ].

(** Collaborators whose chain cannot be built, and a process without the
    credential. *)
Definition chain_broken : services :=
  {| build := Raised "RuntimeError" "collection cannot be opened";
     retrieve := fun _ => Returned [];
     generate := fun _ _ _ => Returned "unused" |}.

Definition no_key_world : world :=
  {| _MEMORY_STORE := ∅; OPENAI_API_KEY := "  "; calls := [] |}.

(* ===================================================================== *)
(** ** utils/transcript_fetcher.py *)
(* ===================================================================== *)

(** One character of the class [[A-Za-z0-9_-]]. *)
Definition is_id_char (c : ascii) : bool :=
  let n := nat_of_ascii c in
  ((65 <=? n) && (n <=? 90)) || ((97 <=? n) && (n <=? 122))
  || ((48 <=? n) && (n <=? 57)) || (n =? 95) || (n =? 45).

(** [re.fullmatch(r"[A-Za-z0-9_-]{11}", s)] *)
Definition is_video_id (s : string) : bool :=
  (String.length s =? 11) && forallb is_id_char (list_ascii_of_string s).

(** [s.lower()] on ASCII letters. *)
Definition lower_char (c : ascii) : ascii :=
  let n := nat_of_ascii c in
  if (65 <=? n) && (n <=? 90) then ascii_of_nat (n + 32) else c.

Fixpoint lower (s : string) : string :=
  match s with
  | EmptyString => EmptyString
  | String c s' => String (lower_char c) (lower s')
  end.

(** [needle in hay] *)
Fixpoint contains (needle hay : string) : bool :=
  String.prefix needle hay
  || match hay with
     | EmptyString => false
     | String _ hay' => contains needle hay'
     end.

(** [s.lstrip("/")] *)
Fixpoint lstrip_slash (s : string) : string :=
  match s with
  | String "/" s' => lstrip_slash s'
  | _ => s
  end.

(** [s.split("/")[0]] *)
Fixpoint first_component (s : string) : string :=
  match s with
  | EmptyString => EmptyString
  | String "/" _ => EmptyString
  | String c s' => String c (first_component s')
  end.

(** [re.match("^" + pre + "([A-Za-z0-9_-]{11})", s)] and its [group(1)]. *)
Definition match_id_after (pre s : string) : option string :=
  if String.prefix pre s then
    let candidate := String.substring (String.length pre) 11 s in
    if is_video_id candidate then Some candidate else None
  else None.

(** [_validate_video_id] *)
Definition _validate_video_id (candidate original : string) : outcome string :=
  if is_video_id candidate then Returned candidate
  else Raised "ValueError"
         ("Could not extract a valid YouTube video ID from: " +:+ original).

(** What [urlparse] returns, as far as it is read. *)
Record ParseResult := {
  netloc : string;
  path : string;
  query : string
}.

(** A segment of the transcription response: something that is not a
    dictionary, or a dictionary whose keys may be missing. *)
Inductive raw_segment :=
| NotADict
| RawSegment (raw_text : option string) (raw_start raw_end : option Q).

(** What [fetch_transcript] returns and caches: the transcript and its
    [source]. *)
Record FetchResult := {
  fetched : TranscriptResult;
  source : option string
}.

(** A file of the cache directory: not JSON, JSON that is no dictionary
    with [segments], or a transcript. Reading back what [json.dump] wrote
    gives the value written. *)
Inductive cache_file :=
| Unreadable
| NotATranscript
| Stored (r : FetchResult).

(** How writing a cache file ends: [path.open("w")] raised and the file is
    as it was; the file was opened, so created or emptied, and [json.dump]
    or the closing of the file raised, leaving the file with what had been
    written; or the transcript is in the file. *)
Inductive write_outcome :=
| OpenFailed (kind msg : string)
| DumpFailed (kind msg : string) (partial : cache_file)
| Written.

(** The library functions and services the fetcher relies on:
    [urllib.parse], yt-dlp (the title of the video; the file name of the
    downloaded audio and whether it exists), the transcription response
    for an audio file, float subtraction, and how the write of a cache
    file ends. *)
Record fetch_services := {
  urlparse : string -> outcome ParseResult;
  parse_qs : string -> gmap string (list string);
  video_info_title : string -> outcome (option string);
  ydl_download : string -> string -> outcome (string * bool);
  transcription : string -> outcome (option (list raw_segment));
  float_sub : Q -> Q -> Q;
  cache_write : string -> FetchResult -> write_outcome
}.

Inductive fetch_event :=
| FetchTitle (canonical_url : string)
| Download (canonical_url video_id : string)
| Transcribe (audio_path : string)
| Unlink (audio_path : string).

(** The state [fetch_transcript] runs in: the cache directory, by video
    id, the credential, and the calls made so far. *)
Record fetch_world := {
  cache : gmap string cache_file;
  whisper_api_key : string;
  fetch_calls : list fetch_event
}.

Definition record_fetch (e : fetch_event) (w : fetch_world) : fetch_world :=
  {| cache := cache w;
     whisper_api_key := whisper_api_key w;
     fetch_calls := fetch_calls w ++ [e] |}.

Definition set_cache (c : gmap string cache_file) (w : fetch_world) : fetch_world :=
  {| cache := c;
     whisper_api_key := whisper_api_key w;
     fetch_calls := fetch_calls w |}.

Section Fetcher.

Variable sv : fetch_services.

(** [extract_video_id] *)
Definition extract_video_id (youtube_url : string) : outcome string :=
  let value := strip youtube_url in
  if truthy value then
    if is_video_id value then Returned value
    else
      match urlparse sv value with
      | Raised _ _ =>
          Raised "ValueError" ("Invalid YouTube URL: " +:+ youtube_url)
      | Returned parsed =>
          let host := lower (netloc parsed) in
          let path := path parsed in
          let fallback :=
            match parse_qs sv (query parsed) !! "v" with
            | Some (v :: _) => _validate_video_id v youtube_url
            | _ =>
                Raised "ValueError"
                  ("Could not extract a video ID from the provided URL. "
                   +:+ "Please use a standard YouTube URL (watch?v=..., youtu.be/..., or /shorts/...).")
            end in
          if contains "youtu.be" host then
            _validate_video_id (first_component (lstrip_slash path)) youtube_url
          else if contains "youtube.com" host || contains "m.youtube.com" host
                  || contains "www.youtube.com" host then
            if String.eqb path "/watch" then
              let candidate :=
                match parse_qs sv (query parsed) !! "v" with
                | Some (v :: _) => v
                | _ => ""
                end in
              _validate_video_id candidate youtube_url
            else
              match match_id_after "/shorts/" path with
              | Some v => Returned v
              | None =>
                  match match_id_after "/embed/" path with
                  | Some v => Returned v
                  | None => fallback
                  end
              end
          else fallback
      end
  else Raised "ValueError" "YouTube URL is empty.".

(** [_load_cached] *)
Definition _load_cached (c : gmap string cache_file) (video_id : string)
    : option FetchResult :=
  match c !! video_id with
  | Some (Stored r) => Some r
  | _ => None
  end.

(** [_save_cached] *)
Definition _save_cached (c : gmap string cache_file) (video_id : string)
    (payload : FetchResult) : outcome unit * gmap string cache_file :=
  match cache_write sv video_id payload with
  | OpenFailed kind msg => (Raised kind msg, c)
  | DumpFailed kind msg partial => (Raised kind msg, <[ video_id := partial ]> c)
  | Written => (Returned tt, <[ video_id := Stored payload ]> c)
  end.

(** [_fetch_video_title] *)
Definition _fetch_video_title (canonical_url : string) : string :=
  match video_info_title sv canonical_url with
  | Returned (Some title) =>
      if truthy (strip title) then title else "Untitled video"
  | _ => "Untitled video"
  end.

(** [_download_audio] *)
Definition _download_audio (canonical_url video_id : string) : outcome string :=
  match ydl_download sv canonical_url video_id with
  | Raised kind msg => Raised kind msg
  | Returned (filename, exists_) =>
      if exists_ : bool then Returned filename
      else Raised "RuntimeError"
             "Audio download succeeded but the file was not found on disk."
  end.

(** [max(0.0, x)] *)
Definition max_zero (x : Q) : Q := if Qle_bool x 0 then 0%Q else x.

(** One turn of the loop over [raw_segments]. *)
Definition keep_segment (segments : list TranscriptSegment) (seg : raw_segment)
    : list TranscriptSegment :=
  match seg with
  | NotADict => segments
  | RawSegment raw_text raw_start raw_end =>
      let t := strip (default "" raw_text) in
      let start := default 0%Q raw_start in
      let end_ := default start raw_end in
      let duration := max_zero (float_sub sv end_ start) in
      if truthy t
      then segments ++ [{| text := t; start := start; duration := duration |}]
      else segments
  end.

(** [_transcribe_with_whisper]; the response is asked for only with a
    credential. *)
Definition _transcribe_with_whisper (audio_path : string) (w : fetch_world)
    : outcome (list TranscriptSegment) * fetch_world :=
  if truthy (strip (whisper_api_key w)) then
    let w := record_fetch (Transcribe audio_path) w in
    match transcription sv audio_path with
    | Raised kind msg => (Raised kind msg, w)
    | Returned (Some (seg :: raw_segments)) =>
        match fold_left keep_segment (seg :: raw_segments) [] with
        | [] =>
            (Raised "RuntimeError"
               "Whisper transcription returned segments but none had usable text.", w)
        | segments => (Returned segments, w)
        end
    | Returned _ =>
        (Raised "RuntimeError" "Whisper transcription returned no segments.", w)
    end
  else
    (Raised "RuntimeError"
       "Missing OPENAI_API_KEY. Add it to your .env file and restart the app.", w).

Definition fetch_failure (kind msg : string) : outcome FetchResult :=
  Raised "RuntimeError"
    ("Failed to fetch transcript. Reason: " +:+ kind +:+ ": " +:+ msg).

(** [fetch_transcript] *)
Definition fetch_transcript (youtube_url : string) (w : fetch_world)
    : outcome FetchResult * fetch_world :=
  match extract_video_id youtube_url with
  | Raised kind msg => (Raised kind msg, w)
  | Returned video_id =>
      let canonical_url := "https://www.youtube.com/watch?v=" +:+ video_id in
      match _load_cached (cache w) video_id with
      | Some cached => (Returned cached, w)
      | None =>
          let w := record_fetch (FetchTitle canonical_url) w in
          let title := _fetch_video_title canonical_url in
          let w := record_fetch (Download canonical_url video_id) w in
          match _download_audio canonical_url video_id with
          | Raised kind msg => (fetch_failure kind msg, w)
          | Returned audio_path =>
              match _transcribe_with_whisper audio_path w with
              | (Raised kind msg, w) =>
                  (fetch_failure kind msg, record_fetch (Unlink audio_path) w)
              | (Returned segments, w) =>
                  let result :=
                    {| fetched :=
                         {| tr_video_id := Some video_id;
                            tr_title := Some title;
                            tr_url := Some canonical_url;
                            tr_segments := segments |};
                       source := Some "whisper" |} in
                  match _save_cached (cache w) video_id result with
                  | (Raised kind msg, c) =>
                      (fetch_failure kind msg,
                       record_fetch (Unlink audio_path) (set_cache c w))
                  | (Returned _, c) =>
                      (Returned result,
                       record_fetch (Unlink audio_path) (set_cache c w))
                  end
              end
          end
      end
  end.

End Fetcher.

(** Concrete services for the examples: a parser that knows one short
    link, one video with a title, a download that leaves a file, and a
    response with a segment that is not a dictionary, one without text
    and two spoken ones. *)
Definition zoo_services : fetch_services :=
  {| urlparse := fun _ =>
       Returned {| netloc := "youtu.be"; path := "/jNQXAC9IVRw"; query := "" |};
     parse_qs := fun _ => ∅;
     video_info_title := fun _ => Returned (Some "Me at the zoo");
     ydl_download := fun _ v => Returned ("data/" +:+ v +:+ ".m4a", true);
     transcription := fun _ =>
       Returned (Some [ NotADict;
                        RawSegment (Some "  ") (Some 0%Q) (Some 1%Q);
                        RawSegment (Some " elephants have trunks ") (Some 1%Q) (Some 4%Q);
                        RawSegment (Some "trunks are strong") (Some 5%Q) None ]);
     float_sub := Qminus;
     cache_write := fun _ _ => Written |}.

Definition silent_services : fetch_services :=
  {| urlparse := urlparse zoo_services;
     parse_qs := parse_qs zoo_services;
     video_info_title := fun _ => Raised "DownloadError" "video unavailable";
     ydl_download := ydl_download zoo_services;
     transcription := fun _ => Raised "APIConnectionError" "connection error";
     float_sub := Qminus;
     cache_write := fun _ _ => Written |}.


Definition empty_cache : fetch_world :=
  {| cache := ∅; whisper_api_key := "sk-test"; fetch_calls := [] |}.

(** A segment as the transcription step hands it on: its text is not
    empty and already trimmed, and its duration is not negative. *)
Definition usable (seg : TranscriptSegment) : Prop :=
  truthy (text seg) = true /\ strip (text seg) = text seg
  /\ (0 <= duration seg)%Q.

(* ===================================================================== *)
(** ** utils/rag_pipeline.py: timestamps *)
(* ===================================================================== *)

(** [str(n)] for an integer that is not negative. *)
Definition decimal (n : nat) : string :=
  NilEmpty.string_of_uint (Nat.to_uint n).

(** [f"{n:02d}"] for an integer that is not negative. *)
Definition pad2 (n : nat) : string :=
  let d := decimal n in
  if String.length d <? 2 then "0" +:+ d else d.

(** [_format_timestamp] *)
Definition _format_timestamp (total_seconds : Z) : string :=
  let s := Z.to_nat (Z.max 0 total_seconds) in
  let h := s / 3600 in
  let m := (s mod 3600) / 60 in
  let sec := s mod 60 in
  if 0 <? h then decimal h +:+ ":" +:+ pad2 m +:+ ":" +:+ pad2 sec
  else pad2 m +:+ ":" +:+ pad2 sec.

(* ===================================================================== *)
(** ** The chunker's loops *)
(* ===================================================================== *)

Section ChunkerLoops.

Variable segments : list TranscriptSegment.
Variables target_words overlap_words : Z.
Variables (vid vtitle vurl : string).

Local Abbreviation scanC := (scan_cond segments target_words).
Local Abbreviation scanB := (scan_body segments).
Local Abbreviation takeC := (take_chunk target_words).
Local Abbreviation ovC := (overlap_cond overlap_words).
Local Abbreviation walkB := (walk_back overlap_words).
Local Abbreviation ovEnd := (overlap_end overlap_words).
Local Abbreviation mkdoc := (make_document vid vtitle vurl).
Local Abbreviation body :=
  (chunk_body segments target_words overlap_words vid vtitle vurl).
Local Abbreviation loop :=
  (chunk_loop segments target_words overlap_words vid vtitle vurl).

Lemma weight_blank seg : truthy (seg_text seg) = false -> weight seg = 0%Z.
Proof. intros H. unfold weight, _word_count. now rewrite H. Qed.

Lemma weight_nonneg seg : (0 <= weight seg)%Z.
Proof. unfold weight. lia. Qed.

(** The inner loop reads the segments left one by one. *)
Lemma scan_loop_eq rest :
  forall fuel i chunk wc,
    drop (i + length chunk) segments = rest ->
    length rest < fuel ->
    while_loop fuel scanC scanB (i, chunk, wc) = Some (takeC rest (i, chunk, wc)).
Proof.
  induction rest as [|seg rest IH]; intros fuel i chunk wc Hdrop Hfuel;
    destruct fuel as [|fuel]; try (simpl in Hfuel; lia);
    pose proof (f_equal length Hdrop) as Hlen; rewrite length_drop in Hlen;
    simpl in Hlen.
  - cbn [while_loop]. unfold scan_cond.
    replace (i + length chunk <? length segments) with false
      by (symmetry; apply Nat.ltb_ge; lia).
    reflexivity.
  - assert (Hlook : segments !! (i + length chunk) = Some seg).
    { rewrite <- (Nat.add_0_r (i + length chunk)), <- lookup_drop, Hdrop.
      reflexivity. }
    assert (Hnext : drop (S (i + length chunk)) segments = rest).
    { replace (S (i + length chunk)) with (i + length chunk + 1) by lia.
      rewrite <- drop_drop, Hdrop. reflexivity. }
    cbn [while_loop take_chunk]. unfold scan_cond at 1.
    replace (i + length chunk <? length segments) with true
      by (symmetry; apply Nat.ltb_lt; lia).
    cbn [andb].
    destruct (wc <? target_words)%Z eqn:Hwc; [|reflexivity].
    unfold scan_body at 2. rewrite Hlook. cbn zeta.
    destruct (truthy (seg_text seg)) eqn:Htext.
    + apply IH; [|simpl in Hfuel; lia].
      rewrite length_app. simpl.
      replace (i + (length chunk + 1)) with (S (i + length chunk)) by lia.
      exact Hnext.
    + apply IH; [|simpl in Hfuel; lia].
      replace (i + 1 + length chunk) with (S (i + length chunk)) by lia.
      exact Hnext.
Qed.

(** The backward walk visits the chunk's segments last to first. *)
Lemma overlap_loop_eq chunk pre :
  forall suf fuel os oc,
    chunk = pre ++ suf ->
    os = (Z.of_nat (length pre) - 1)%Z ->
    length pre < fuel ->
    while_loop fuel ovC (overlap_body chunk) (os, oc)
    = Some (walkB (rev pre) (os, oc)).
Proof.
  induction pre as [|seg pre IH] using rev_ind;
    intros suf fuel os oc Hchunk Hos Hfuel;
    destruct fuel as [|fuel]; try (simpl in Hfuel; lia).
  - simpl in Hos. subst os. reflexivity.
  - rewrite length_app in Hos, Hfuel. simpl in Hos, Hfuel.
    rewrite rev_app_distr. cbn [rev app while_loop walk_back].
    unfold overlap_cond at 1.
    replace (0 <=? os)%Z with true by (symmetry; apply Z.leb_le; lia).
    cbn [andb].
    destruct (oc <? overlap_words)%Z eqn:Hoc; [|reflexivity].
    assert (Hlook : chunk !! Z.to_nat os = Some seg).
    { subst chunk os. rewrite <- app_assoc.
      replace (Z.to_nat (Z.of_nat (length pre + 1) - 1)) with (length pre) by lia.
      rewrite lookup_app_r by lia. now rewrite Nat.sub_diag. }
    unfold overlap_body at 2. rewrite Hlook.
    apply (IH ([seg] ++ suf)); [now rewrite app_assoc | lia | lia].
Qed.

Lemma walk_back_bounds r :
  forall os oc,
    (os - Z.of_nat (length r) <= fst (walkB r (os, oc)) <= os)%Z.
Proof.
  induction r as [|seg r IH]; intros os oc; cbn [walk_back length].
  - simpl. lia.
  - destruct (oc <? overlap_words)%Z.
    + specialize (IH (os - 1)%Z (oc + weight seg)%Z). lia.
    + simpl. lia.
Qed.

Lemma overlap_end_bounds chunk :
  (0 <= ovEnd chunk <= Z.of_nat (length chunk))%Z.
Proof.
  unfold overlap_end.
  pose proof (walk_back_bounds (rev chunk)
                (Z.of_nat (length chunk) - 1)%Z 0%Z) as H.
  rewrite length_rev in H. lia.
Qed.

(** Whatever the walk finds, the index moves on by at least one segment
    and by at most the chunk. *)
Lemma advance_bounds chunk :
  chunk <> [] ->
  1 <= advance chunk (ovEnd chunk) <= length chunk.
Proof.
  intros Hne. pose proof (overlap_end_bounds chunk) as H.
  assert (0 < length chunk) by (destruct chunk; [congruence | simpl; lia]).
  unfold advance. destruct (0 <? ovEnd chunk)%Z eqn:Hpos.
  - apply Z.ltb_lt in Hpos. lia.
  - lia.
Qed.

(** With no overlap asked for, the walk stops at once and the next chunk
    starts after the last segment of this one. *)
Lemma advance_no_overlap chunk :
  (overlap_words <= 0)%Z -> chunk <> [] ->
  advance chunk (ovEnd chunk) = length chunk.
Proof.
  intros Ho Hne.
  assert (Hend : ovEnd chunk = Z.of_nat (length chunk)).
  { unfold overlap_end.
    destruct (rev chunk) as [|seg r] eqn:Hrev.
    - apply (f_equal (@length _)) in Hrev. rewrite length_rev in Hrev.
      destruct chunk; [congruence | simpl in Hrev; lia].
    - cbn [walk_back].
      replace (0 <? overlap_words)%Z with false
        by (symmetry; apply Z.ltb_ge; lia).
      simpl. lia. }
  unfold advance. rewrite Hend.
  assert (0 < length chunk) by (destruct chunk; [congruence | simpl; lia]).
  replace (0 <? Z.of_nat (length chunk))%Z with true
    by (symmetry; apply Z.ltb_lt; lia).
  lia.
Qed.

Local Abbreviation passC :=
  (pass segments target_words overlap_words vid vtitle vurl).

Lemma unread_le rest : forall wc, unread target_words wc rest <= length rest.
Proof.
  induction rest as [|seg rest IH]; intros wc; cbn [unread length]; [lia|].
  destruct (wc <? target_words)%Z; [specialize (IH (wc + weight seg)%Z)|]; lia.
Qed.

(** Where the inner loop stops: every segment offered is taken, stepped
    over or left unread, and [i] moves by the segments stepped over. *)
Lemma take_chunk_position rest :
  forall i chunk wc i1 chunk1 wc1,
    takeC rest (i, chunk, wc) = (i1, chunk1, wc1) ->
    i1 + length chunk1 + unread target_words wc rest
    = i + length chunk + length rest
    /\ i1 = i + skipped target_words wc rest.
Proof.
  induction rest as [|seg rest IH]; intros i chunk wc i1 chunk1 wc1 H;
    cbn [take_chunk unread skipped length] in *.
  - inversion H; subst. lia.
  - destruct (wc <? target_words)%Z.
    + destruct (truthy (seg_text seg)) eqn:Htext.
      * apply IH in H. rewrite length_app in H. simpl in H. lia.
      * apply IH in H. rewrite (weight_blank _ Htext), Z.add_0_r in *. lia.
    + inversion H; subst. lia.
Qed.

(** What the inner loop collects: the chunk grows at its end, by segments
    offered to it whose trimmed text is not empty. *)
Lemma take_chunk_parts rest :
  forall i chunk wc i1 chunk1 wc1,
    takeC rest (i, chunk, wc) = (i1, chunk1, wc1) ->
    exists added,
      chunk1 = chunk ++ added
      /\ Forall (fun seg => In seg rest /\ truthy (seg_text seg) = true) added.
Proof.
  induction rest as [|seg rest IH]; intros i chunk wc i1 chunk1 wc1 H;
    cbn [take_chunk] in H.
  - inversion H; subst. exists []. split; [now rewrite app_nil_r | constructor].
  - destruct (wc <? target_words)%Z.
    + destruct (truthy (seg_text seg)) eqn:Htext.
      * apply IH in H. destruct H as (added & -> & Hall).
        exists (seg :: added). split; [now rewrite <- app_assoc|].
        constructor; [split; [now left | assumption]|].
        eapply Forall_impl; [exact Hall|]. cbn. intros s [Hin Ht].
        split; [now right | assumption].
      * apply IH in H. destruct H as (added & -> & Hall).
        exists added. split; [reflexivity|].
        eapply Forall_impl; [exact Hall|]. cbn. intros s [Hin Ht].
        split; [now right | assumption].
    + inversion H; subst. exists []. split; [now rewrite app_nil_r | constructor].
Qed.

(** With a positive target, a segment with text among those offered is
    enough for a chunk. *)
Lemma take_chunk_nonempty rest :
  forall i i1 chunk1 wc1,
    (0 < target_words)%Z ->
    Exists (fun seg => truthy (seg_text seg) = true) rest ->
    takeC rest (i, [], 0%Z) = (i1, chunk1, wc1) ->
    chunk1 <> [].
Proof.
  induction rest as [|seg rest IH]; intros i i1 chunk1 wc1 Ht Hex H.
  - inversion Hex.
  - cbn [take_chunk] in H.
    replace (0 <? target_words)%Z with true in H
      by (symmetry; apply Z.ltb_lt; lia).
    destruct (truthy (seg_text seg)) eqn:Htext.
    + apply take_chunk_parts in H. destruct H as (added & -> & _).
      discriminate.
    + apply (IH (i + 1) i1 chunk1 wc1 Ht); [|exact H].
      inversion Hex; subst; [congruence | assumption].
Qed.

Lemma take_chunk_all_blank rest :
  forall i,
    Forall (fun seg => truthy (seg_text seg) = false) rest ->
    exists i1, takeC rest (i, [], 0%Z) = (i1, [], 0%Z).
Proof.
  induction rest as [|seg rest IH]; intros i Hall; cbn [take_chunk].
  - now exists i.
  - inversion Hall as [|? ? Hseg Hrest]; subst. rewrite Hseg.
    destruct (0 <? target_words)%Z; [apply IH; assumption | now exists i].
Qed.


(** The outer loop body computes [pass]. *)
Lemma chunk_body_eq gas i documents :
  length segments < gas ->
  body gas i documents = Some (passC i documents).
Proof.
  intros Hgas. unfold chunk_body, pass.
  rewrite (scan_loop_eq (drop i segments)); cycle 1.
  { simpl. now rewrite Nat.add_0_r. }
  { rewrite length_drop. lia. }
  destruct (takeC (drop i segments) (i, [], 0%Z)) as [[i1 chunk] wc] eqn:Htake.
  cbn [mbind option_bind].
  destruct chunk as [|seg chunk]; [reflexivity|].
  apply take_chunk_position in Htake. rewrite length_drop in Htake.
  simpl in Htake.
  rewrite (overlap_loop_eq _ (seg :: chunk) []); cycle 1.
  { now rewrite app_nil_r. }
  { reflexivity. }
  { simpl. lia. }
  destruct (walkB (rev (seg :: chunk))
              ((Z.of_nat (length (seg :: chunk)) - 1)%Z, 0%Z))
    as [os oc] eqn:Hwalk.
  cbn [mbind option_bind]. unfold overlap_end. now rewrite Hwalk.
Qed.

(** Each pass that reaches the bottom of the loop has moved [i] on. *)
Lemma pass_advances i documents i' documents' :
  passC i documents = Next i' documents' -> i < i'.
Proof.
  unfold pass.
  destruct (takeC (drop i segments) (i, [], 0%Z)) as [[i1 chunk] wc] eqn:Htake.
  destruct chunk as [|seg chunk]; [discriminate|].
  intros H. inversion H; subst.
  apply take_chunk_position in Htake.
  pose proof (advance_bounds (seg :: chunk) ltac:(discriminate)) as Hadv.
  lia.
Qed.

(** The outer loop returns, and what it returns does not depend on the
    bounds once they cover the segment list. *)
Lemma chunk_loop_total k :
  forall i documents,
    length segments - i <= k ->
    exists out,
      forall gas fuel,
        length segments < gas -> length segments - i < fuel ->
        loop gas fuel i documents = Some out.
Proof.
  induction k as [|k IH]; intros i documents Hk.
  - exists documents. intros gas [|fuel] Hgas Hfuel; [lia|].
    cbn [chunk_loop].
    replace (i <? length segments) with false
      by (symmetry; apply Nat.ltb_ge; lia).
    reflexivity.
  - destruct (Nat.ltb_spec i (length segments)) as [Hlt|Hge].
    + destruct (passC i documents) as [i' documents'|documents'] eqn:Hpass.
      * pose proof (pass_advances _ _ _ _ Hpass) as Hadv.
        destruct (IH i' documents') as [out Hout]; [lia|].
        exists out. intros gas [|fuel] Hgas Hfuel; [lia|].
        cbn [chunk_loop].
        replace (i <? length segments) with true
          by (symmetry; apply Nat.ltb_lt; lia).
        rewrite chunk_body_eq by assumption. cbn [mbind option_bind].
        rewrite Hpass. apply Hout; lia.
      * exists documents'. intros gas [|fuel] Hgas Hfuel; [lia|].
        cbn [chunk_loop].
        replace (i <? length segments) with true
          by (symmetry; apply Nat.ltb_lt; lia).
        rewrite chunk_body_eq by assumption. cbn [mbind option_bind].
        now rewrite Hpass.
    + exists documents. intros gas [|fuel] Hgas Hfuel; [lia|].
      cbn [chunk_loop].
      replace (i <? length segments) with false
        by (symmetry; apply Nat.ltb_ge; lia).
      reflexivity.
Qed.

Lemma In_drop (n : nat) (l : list TranscriptSegment) x :
  In x (drop n l) -> In x l.
Proof.
  intros H. rewrite <- (take_drop n l). apply in_or_app. now right.
Qed.

Local Abbreviation producedC := (produced segments vid vtitle vurl).

Lemma pass_next i documents i' documents' :
  passC i documents = Next i' documents' ->
  exists d, documents' = documents ++ [d] /\ producedC d.
Proof.
  unfold pass.
  destruct (takeC (drop i segments) (i, [], 0%Z)) as [[i1 chunk] wc] eqn:Htake.
  destruct chunk as [|seg chunk]; [discriminate|].
  intros H. inversion H; subst. eexists. split; [reflexivity|].
  apply take_chunk_parts in Htake. destruct Htake as (added & Heq & Hall).
  simpl in Heq. subst added.
  assert (Hall' : Forall (fun s => In s segments /\ truthy (seg_text s) = true)
                    (seg :: chunk)).
  { eapply Forall_impl; [exact Hall|]. cbn. intros s [Hin Ht].
    split; [eapply In_drop; eassumption | assumption]. }
  inversion Hall' as [|? ? [Hin Ht] Hrest]; subst.
  exists seg, chunk. repeat split; assumption.
Qed.

Lemma pass_break i documents documents' :
  passC i documents = Break documents' -> documents' = documents.
Proof.
  unfold pass.
  destruct (takeC (drop i segments) (i, [], 0%Z)) as [[i1 chunk] wc].
  destruct chunk; [|discriminate]. intros H. now inversion H.
Qed.

(** The loop only appends, and only documents that are [produced]. *)
Lemma chunk_loop_output gas fuel :
  forall i documents out,
    length segments < gas ->
    loop gas fuel i documents = Some out ->
    exists more, out = documents ++ more /\ Forall producedC more.
Proof.
  induction fuel as [|fuel IH]; intros i documents out Hgas H;
    cbn [chunk_loop] in H; [discriminate|].
  destruct (i <? length segments).
  - rewrite chunk_body_eq in H by assumption. cbn [mbind option_bind] in H.
    destruct (passC i documents) as [i' documents'|documents'] eqn:Hpass.
    + apply pass_next in Hpass. destruct Hpass as (d & -> & Hd).
      apply IH in H; [|assumption]. destruct H as (more & -> & Hmore).
      exists (d :: more). split; [now rewrite <- app_assoc|].
      now constructor.
    + apply pass_break in Hpass. subst documents'. inversion H; subst.
      exists []. split; [now rewrite app_nil_r | constructor].
  - inversion H; subst. exists []. split; [now rewrite app_nil_r | constructor].
Qed.

End ChunkerLoops.

(** The bound [len(segments) + 1], or any larger one, lets [build_chunks]
    run to its [return]. *)
Lemma build_chunks_fuel_enough transcript target_words overlap_words fuel :
  length (tr_segments transcript) < fuel ->
  build_chunks_fuel fuel transcript target_words overlap_words
  = Some (build_chunks transcript target_words overlap_words).
Proof.
  intros Hfuel. unfold build_chunks, build_chunks_fuel.
  destruct (tr_segments transcript) as [|seg segs] eqn:Hsegs; [reflexivity|].
  destruct (chunk_loop_total (seg :: segs) target_words overlap_words
              (or_else (tr_video_id transcript) "")
              (or_else (tr_title transcript) "Untitled video")
              (or_else (tr_url transcript) "")
              (length (seg :: segs)) 0 []) as [out Hout]; [lia|].
  rewrite !Hout by lia. reflexivity.
Qed.

(** Every document returned was [produced] from the transcript's segments. *)
Lemma build_chunks_produced transcript target_words overlap_words :
  Forall (produced (tr_segments transcript)
            (or_else (tr_video_id transcript) "")
            (or_else (tr_title transcript) "Untitled video")
            (or_else (tr_url transcript) ""))
    (build_chunks transcript target_words overlap_words).
Proof.
  pose proof (build_chunks_fuel_enough transcript target_words overlap_words
                (S (length (tr_segments transcript))) ltac:(lia)) as H.
  unfold build_chunks_fuel in H.
  destruct (tr_segments transcript) as [|seg segs] eqn:Hsegs.
  - injection H as <-. constructor.
  - apply chunk_loop_output in H; [|simpl; lia].
    destruct H as (more & -> & Hmore). exact Hmore.
Qed.

Lemma int_of_float_floor (x : Q) : (0 <= x)%Q -> int_of_float x = Qfloor x.
Proof.
  destruct x as [n d]. unfold Qle, int_of_float, Qfloor. simpl. intros H.
  apply Z.quot_div_nonneg; lia.
Qed.

(* ===================================================================== *)
(** ** Words of a trimmed text *)
(* ===================================================================== *)

Lemma split_chars_pending cur l : cur <> [] -> split_chars cur l <> [].
Proof.
  revert cur. induction l as [|c l IH]; intros cur Hcur; simpl.
  - destruct cur; [congruence | discriminate].
  - destruct (is_space c).
    + destruct cur; [congruence | discriminate].
    + apply IH. discriminate.
Qed.

Lemma split_chars_word cur l :
  existsb (fun c => negb (is_space c)) l = true -> split_chars cur l <> [].
Proof.
  revert cur. induction l as [|c l IH]; intros cur H; simpl in *;
    [discriminate|].
  destruct (is_space c); simpl in H.
  - destruct cur; [now apply IH | discriminate].
  - apply split_chars_pending. discriminate.
Qed.

Lemma lstrip_chars_head l c l' :
  lstrip_chars l = c :: l' -> is_space c = false.
Proof.
  induction l as [|a l IH]; simpl; [discriminate|].
  destruct (is_space a) eqn:Ha; [exact IH|].
  intros H. inversion H; subst. exact Ha.
Qed.

Lemma rstrip_chars_word l :
  rstrip_chars l <> [] ->
  existsb (fun c => negb (is_space c)) (rstrip_chars l) = true.
Proof.
  unfold rstrip_chars. intros Hne.
  destruct (lstrip_chars (rev l)) as [|c l'] eqn:H; [now elim Hne|].
  apply lstrip_chars_head in H. simpl.
  rewrite existsb_app. simpl. rewrite H. simpl. apply orb_true_r.
Qed.

(** A trimmed text that is not empty has at least one word. *)
Lemma word_count_strip s :
  truthy (strip s) = true -> 1 <= _word_count (strip s).
Proof.
  intros Ht. unfold _word_count. rewrite Ht. unfold split, strip in *.
  rewrite list_ascii_of_string_of_list_ascii.
  set (x := rstrip_chars (lstrip_chars (list_ascii_of_string s))) in *.
  assert (Hx : x <> []) by (intros E; rewrite E in Ht; discriminate).
  pose proof (split_chars_word [] x (rstrip_chars_word _ Hx)) as Hsplit.
  destruct (split_chars [] x); [congruence | simpl; lia].
Qed.

Lemma weight_text seg : truthy (seg_text seg) = true -> (1 <= weight seg)%Z.
Proof.
  intros H. unfold weight, seg_text in *.
  pose proof (word_count_strip _ H). lia.
Qed.

(* ===================================================================== *)
(** ** Chunk counts for two targets *)
(* ===================================================================== *)

Section TwoTargets.

Variable segments : list TranscriptSegment.
Variables t1 t2 overlap_words : Z.
Variables (vid vtitle vurl : string).
Hypothesis t1_pos : (1 <= t1)%Z.
Hypothesis t1_le_t2 : (t1 <= t2)%Z.

(** The overlap asked for is covered by any one segment with text. *)
Hypothesis short_overlap :
  Forall (fun seg => truthy (seg_text seg) = true ->
                     (overlap_words <= weight seg)%Z) segments.











End TwoTargets.

(* ===================================================================== *)
(** ** Properties of [build_chunks] *)
(* ===================================================================== *)

(** C1, as stated, fails: the start of a segment is cut toward zero, not
    floored. A chunk built from a segment starting at -0.5 has
    [start_time] 0, and no segment of the input has floor 0. *)
Lemma start_time_not_floor :
  exists d,
    In d (build_chunks before_zero 400 50)
    /\ forall seg, In seg (tr_segments before_zero) ->
         start_time (metadata d) <> Qfloor (start seg).
Proof.
  eexists. split.
  - vm_compute. left. reflexivity.
  - intros seg [<- | []]. vm_compute. discriminate.
Qed.

(** C1, amended: every chunk returned by [build_chunks] has a [start_time]
    equal to the start of its first contributing segment, a segment of
    the input, cut to whole seconds toward zero; that is the floor
    whenever the start is not negative. *)
Theorem build_chunks_start_time transcript target_words overlap_words d :
  In d (build_chunks transcript target_words overlap_words) ->
  starts_at_first_segment transcript d.
Proof.
  intros Hin.
  pose proof (build_chunks_produced transcript target_words overlap_words) as Hall.
  rewrite Forall_forall in Hall. apply list_elem_of_In in Hin.
  destruct (Hall d Hin) as (first & others & -> & Hfirst & Htext & Hothers).
  exists first, others. repeat split.
  - exact Hfirst.
  - exact Htext.
  - eapply Forall_impl; [exact Hothers|]. cbn. tauto.
  - intros Hpos. apply int_of_float_floor. exact Hpos.
Qed.

Lemma build_chunks_start_time_witness :
  let d := {| page_content := "trunks are strong they can lift heavy things";
              metadata := {| video_id := "jNQXAC9IVRw";
                             video_title := "Me at the zoo";
                             start_time := 5;
                             url := "https://www.youtube.com/watch?v=jNQXAC9IVRw" |} |} in
  In d (build_chunks elephants 5 2) /\ starts_at_first_segment elephants d.
Proof.
  intros d.
  assert (H : In d (build_chunks elephants 5 2)).
  { vm_compute. right. left. reflexivity. }
  split; [exact H | exact (build_chunks_start_time elephants 5 2 d H)].
Defined.

(** C4: [build_chunks] returns for every segment list and every
    [target_words] and [overlap_words], zero included: with the loops
    bounded by any number above [len(segments)], the call returns its
    documents, and each pass of the outer loop returns too and either
    leaves the loop or moves [i] on by at least one. *)
Theorem build_chunks_terminates transcript target_words overlap_words fuel :
  length (tr_segments transcript) < fuel ->
  build_chunks_fuel fuel transcript target_words overlap_words
  = Some (build_chunks transcript target_words overlap_words)
  /\ forall i documents,
       exists r,
         chunk_body (tr_segments transcript) target_words overlap_words
           (or_else (tr_video_id transcript) "")
           (or_else (tr_title transcript) "Untitled video")
           (or_else (tr_url transcript) "") fuel i documents = Some r
         /\ forall i' documents', r = Next i' documents' -> i < i'.
Proof.
  intros Hfuel. split.
  - apply build_chunks_fuel_enough. exact Hfuel.
  - intros i documents. eexists. split.
    + apply chunk_body_eq. exact Hfuel.
    + intros i' documents' H. eapply pass_advances. exact H.
Qed.

Lemma build_chunks_terminates_witness :
  length (tr_segments elephants) < 4
  /\ build_chunks_fuel 4 elephants 0 0 = Some (build_chunks elephants 0 0).
Proof.
  assert (H : length (tr_segments elephants) < 4) by (simpl; lia).
  split; [exact H|].
  exact (proj1 (build_chunks_terminates elephants 0 0 4 H)).
Defined.




(** Segments without text give no chunk, whatever the target. *)
Lemma build_chunks_all_blank transcript target_words overlap_words :
  Forall (fun seg => truthy (seg_text seg) = false) (tr_segments transcript) ->
  build_chunks transcript target_words overlap_words = [].
Proof.
  intros Hall.
  pose proof (build_chunks_fuel_enough transcript target_words overlap_words
                (S (length (tr_segments transcript))) ltac:(lia)) as H.
  unfold build_chunks_fuel in H.
  destruct (tr_segments transcript) as [|seg segs] eqn:Hsegs;
    [now injection H as <-|].
  cbn [chunk_loop] in H.
  replace (0 <? length (seg :: segs)) with true in H by reflexivity.
  rewrite chunk_body_eq in H by lia. cbn [mbind option_bind] in H.
  unfold pass in H.
  destruct (take_chunk_all_blank target_words (drop 0 (seg :: segs)) 0 Hall)
    as [i1 Htake].
  rewrite Htake in H. now injection H as <-.
Qed.

(** C6, as stated, fails: a segment list that is not empty but holds no
    text gives no chunk. *)
Lemma no_text_no_chunks :
  tr_segments silent <> [] /\ build_chunks silent 400 50 = [].
Proof. split; [discriminate | reflexivity]. Qed.

(** C6, amended: when some segment has text left after trimming and
    [target_words] is at least 1, [build_chunks] returns at least one
    chunk. *)
Theorem build_chunks_nonempty transcript target_words overlap_words :
  (1 <= target_words)%Z ->
  Exists (fun seg => truthy (seg_text seg) = true) (tr_segments transcript) ->
  build_chunks transcript target_words overlap_words <> [].
Proof.
  intros Ht Hex.
  pose proof (build_chunks_fuel_enough transcript target_words overlap_words
                (S (length (tr_segments transcript))) ltac:(lia)) as H.
  unfold build_chunks_fuel in H.
  destruct (tr_segments transcript) as [|seg segs] eqn:Hsegs; [inversion Hex|].
  cbn [chunk_loop] in H.
  replace (0 <? length (seg :: segs)) with true in H by reflexivity.
  rewrite chunk_body_eq in H by lia. cbn [mbind option_bind] in H.
  unfold pass in H.
  destruct (take_chunk target_words (drop 0 (seg :: segs)) (0, [], 0%Z))
    as [[i1 chunk] wc] eqn:Htake.
  apply take_chunk_nonempty in Htake; [|lia|exact Hex].
  destruct chunk as [|c chunk]; [congruence|].
  apply chunk_loop_output in H; [|lia].
  destruct H as (more & -> & _). discriminate.
Qed.

Lemma build_chunks_nonempty_witness :
  build_chunks elephants 5 2 <> [].
Proof.
  apply (build_chunks_nonempty elephants 5 2); [lia|].
  apply Exists_cons_hd. reflexivity.
Defined.

(* ===================================================================== *)
(** ** Trimming *)
(* ===================================================================== *)

Lemma list_ascii_of_string_app (a b : string) :
  list_ascii_of_string (a +:+ b) = list_ascii_of_string a ++ list_ascii_of_string b.
Proof. induction a as [|c a IH]; simpl; [reflexivity | now rewrite IH]. Qed.

Lemma lstrip_chars_spaces l x :
  forallb is_space l = true -> lstrip_chars (l ++ x) = lstrip_chars x.
Proof.
  induction l as [|c l IH]; simpl; [reflexivity|].
  intros H. apply andb_true_iff in H. destruct H as [Hc Hl].
  rewrite Hc. now apply IH.
Qed.

Lemma lstrip_chars_all_spaces l :
  forallb is_space l = true -> lstrip_chars l = [].
Proof.
  intros H. rewrite <- (app_nil_r l). now rewrite lstrip_chars_spaces.
Qed.

Lemma forallb_rev {A} (f : A -> bool) l :
  forallb f (rev l) = forallb f l.
Proof.
  induction l as [|a l IH]; simpl; [reflexivity|].
  rewrite forallb_app, IH. simpl. rewrite andb_true_r. apply andb_comm.
Qed.

Lemma rstrip_chars_spaces x r :
  forallb is_space r = true -> rstrip_chars (x ++ r) = rstrip_chars x.
Proof.
  intros H. unfold rstrip_chars. rewrite rev_app_distr.
  rewrite lstrip_chars_spaces; [reflexivity|]. now rewrite forallb_rev.
Qed.

Lemma strip_chars_right x r :
  forallb is_space r = true ->
  rstrip_chars (lstrip_chars (x ++ r)) = rstrip_chars (lstrip_chars x).
Proof.
  intros H. induction x as [|c x IH]; simpl.
  - now rewrite lstrip_chars_all_spaces.
  - destruct (is_space c); [exact IH|].
    now rewrite app_comm_cons, rstrip_chars_spaces.
Qed.

(** Whitespace around a string does not survive [strip]. *)
Lemma strip_padding l s r :
  all_space l = true -> all_space r = true ->
  strip (l +:+ s +:+ r) = strip s.
Proof.
  unfold all_space, strip. intros Hl Hr.
  rewrite !list_ascii_of_string_app.
  rewrite lstrip_chars_spaces by exact Hl.
  now rewrite strip_chars_right.
Qed.

(* ===================================================================== *)
(** ** Conversation memory *)
(* ===================================================================== *)




Lemma _get_history_eq store session_id :
  _get_history store session_id
  = render_history (last5 (stored store (session_key session_id))).
Proof. reflexivity. Qed.

Lemma _save_history_eq store session_id question answer :
  _save_history store session_id question answer
  = <[ session_key session_id :=
         stored store (session_key session_id) ++ [(question, answer)] ]> store.
Proof.
  unfold _save_history, stored.
  destruct (store !! session_key session_id) eqn:H.
  - now rewrite H.
  - rewrite lookup_insert_eq. simpl. now rewrite insert_insert_eq.
Qed.

Lemma stored_save_same store session_id question answer :
  stored (_save_history store session_id question answer) (session_key session_id)
  = stored store (session_key session_id) ++ [(question, answer)].
Proof.
  rewrite _save_history_eq. unfold stored at 1. now rewrite lookup_insert_eq.
Qed.

Lemma stored_save_other store session_id question answer sid :
  session_key session_id <> sid ->
  stored (_save_history store session_id question answer) sid = stored store sid.
Proof.
  intros Hne. rewrite _save_history_eq. unfold stored at 1.
  now rewrite lookup_insert_ne.
Qed.


(** What [ask] leaves in memory: the store as it was, or one exchange
    saved under the session asked with. *)
Lemma ask_memory sv question session_id w :
  _MEMORY_STORE (snd (ask sv question session_id w)) = _MEMORY_STORE w
  \/ exists answer,
       _MEMORY_STORE (snd (ask sv question session_id w))
       = _save_history (_MEMORY_STORE w) session_id (strip question) answer.
Proof.
  unfold ask.
  destruct (truthy (strip question)); [|now left].
  destruct (truthy (strip (OPENAI_API_KEY w))); [|now left].
  destruct (build sv) as [u|kind msg]; [|now left].
  unfold invoke.
  destruct (retrieve sv (strip question)) as [docs|kind msg]; [|now left].
  destruct (generate sv _ (strip question) docs) as [answer|kind msg];
    [right; exists answer; reflexivity | now left].
Qed.

Lemma strip_all_space s : all_space s = true -> strip s = "".
Proof.
  unfold all_space, strip. intros H.
  now rewrite lstrip_chars_all_spaces.
Qed.

Lemma session_key_padding l s r :
  all_space l = true -> all_space r = true ->
  session_key (l +:+ s +:+ r) = session_key s.
Proof. intros Hl Hr. unfold session_key. now rewrite strip_padding. Qed.

Lemma _get_history_key store a b :
  session_key a = session_key b -> _get_history store a = _get_history store b.
Proof. intros H. rewrite !_get_history_eq. now rewrite H. Qed.

Lemma _save_history_key store a b question answer :
  session_key a = session_key b ->
  _save_history store a question answer = _save_history store b question answer.
Proof. intros H. rewrite !_save_history_eq. now rewrite H. Qed.

(* ===================================================================== *)
(** ** Properties of the conversation memory and of [ask] *)
(* ===================================================================== *)

(** C2, as stated, fails: "s1" and " s1 " are distinct session ids, and an
    exchange saved under the first is read back under the second. *)
Lemma distinct_ids_share_history :
  "s1" <> " s1 "
  /\ _get_history (_save_history ∅ "s1" "q" "a") " s1 " <> _get_history ∅ " s1 ".
Proof. split; vm_compute; discriminate. Qed.

(** C2, amended: for two session ids whose keys differ (the id trimmed,
    "default" when nothing is left), an exchange appended under the first,
    by [_save_history] or by [ask], leaves what is stored and what is
    read under the second unchanged. *)
Theorem sessions_isolated sv a b store question answer w :
  session_key a <> session_key b ->
  stored (_save_history store a question answer) (session_key b)
  = stored store (session_key b)
  /\ _get_history (_save_history store a question answer) b = _get_history store b
  /\ _get_history (_MEMORY_STORE (snd (ask sv question a w))) b
     = _get_history (_MEMORY_STORE w) b.
Proof.
  intros Hne. split; [|split].
  - now apply stored_save_other.
  - rewrite !_get_history_eq. now rewrite stored_save_other.
  - destruct (ask_memory sv question a w) as [-> | [ans ->]]; [reflexivity|].
    rewrite !_get_history_eq. now rewrite stored_save_other.
Qed.

Lemma sessions_isolated_witness :
  session_key "s1" <> session_key "s2"
  /\ _get_history
       (_MEMORY_STORE (snd (ask answering "what do elephants have?" "s1" fresh_world)))
       "s2"
     = _get_history (_MEMORY_STORE fresh_world) "s2".
Proof.
  assert (H : session_key "s1" <> session_key "s2") by (vm_compute; discriminate).
  split; [exact H|].
  apply (sessions_isolated answering "s1" "s2" ∅ "what do elephants have?" "" fresh_world H).
Defined.



(** C8: [ask] does not catch every failure of its answer path. The chain
    is built before the [try]: with a question that has text and the
    credential set, an index that cannot be opened makes [ask] raise
    instead of returning an answer; nothing is asked of the index or of
    the model. *)
Theorem ask_chain_failure_raises :
  ask chain_broken "what do elephants have?" "s1" fresh_world
  = (Raised "RuntimeError" "collection cannot be opened",
     record_call BuildChain fresh_world)
  /\ calls (snd (ask chain_broken "what do elephants have?" "s1" fresh_world))
     = [BuildChain].
Proof.
  unfold ask.
  assert (Hq : truthy (strip "what do elephants have?") = true) by reflexivity.
  assert (Hkey : truthy (strip (OPENAI_API_KEY fresh_world)) = true) by reflexivity.
  rewrite Hq, Hkey. cbn [build chain_broken]. split; reflexivity.
Qed.

(** Once [ask] has its chain, a failure of the retriever or of the
    prompt-and-model step does not leave [ask]: the answer is the apology
    naming the kind and message of the failure, and the memory is as it
    was. *)
Theorem ask_catches_failures sv question session_id w kind msg :
  truthy (strip question) = true ->
  truthy (strip (OPENAI_API_KEY w)) = true ->
  (exists u, build sv = Returned u) ->
  (retrieve sv (strip question) = Raised kind msg
   \/ exists docs,
        retrieve sv (strip question) = Returned docs
        /\ generate sv (_get_history (_MEMORY_STORE w) session_id)
             (strip question) docs = Raised kind msg) ->
  fst (ask sv question session_id w)
  = Returned ("Sorry — I ran into an error while answering that. ("
                +:+ kind +:+ ": " +:+ msg +:+ ")")
  /\ _MEMORY_STORE (snd (ask sv question session_id w)) = _MEMORY_STORE w.
Proof.
  intros Hq Hkey [u Hbuild] Hfail. unfold ask, invoke.
  rewrite Hq, Hkey, Hbuild.
  destruct Hfail as [Hr | (docs & Hr & Hg)].
  - rewrite Hr. split; reflexivity.
  - rewrite Hr. cbn [_MEMORY_STORE record_call]. rewrite Hg. split; reflexivity.
Qed.

Lemma ask_catches_failures_witness :
  fst (ask retriever_down "what do elephants have?" "s1" fresh_world)
  = Returned "Sorry — I ran into an error while answering that. (ConnectionError: index unreachable)"
  /\ _MEMORY_STORE (snd (ask retriever_down "what do elephants have?" "s1" fresh_world))
     = _MEMORY_STORE fresh_world.
Proof.
  apply (ask_catches_failures retriever_down "what do elephants have?" "s1"
           fresh_world "ConnectionError" "index unreachable").
  - reflexivity.
  - reflexivity.
  - exists tt. reflexivity.
  - left. reflexivity.
Defined.

(** What [_build_rag_chain] raises is raised by [ask]: the call stands
    before the [try]. *)
Lemma ask_build_failure sv question session_id w kind msg :
  truthy (strip question) = true ->
  truthy (strip (OPENAI_API_KEY w)) = true ->
  build sv = Raised kind msg ->
  fst (ask sv question session_id w) = Raised kind msg
  /\ _MEMORY_STORE (snd (ask sv question session_id w)) = _MEMORY_STORE w.
Proof.
  intros Hq Hkey Hbuild. unfold ask. rewrite Hq, Hkey, Hbuild. auto.
Qed.

(** C9: a question that is empty or all whitespace gets the fixed prompt
    for input, and the world is left as it was: nothing is asked of the
    index or of the model, and nothing is written to the memory. *)
Theorem ask_blank_question sv question session_id w :
  all_space question = true ->
  ask sv question session_id w = (Returned "Please enter a question.", w)
  /\ calls (snd (ask sv question session_id w)) = calls w
  /\ _MEMORY_STORE (snd (ask sv question session_id w)) = _MEMORY_STORE w.
Proof.
  intros H. unfold ask. rewrite (strip_all_space _ H). simpl. auto.
Qed.

Lemma ask_blank_question_witness :
  all_space "   " = true
  /\ ask answering "   " "s1" fresh_world
     = (Returned "Please enter a question.", fresh_world).
Proof.
  assert (H : all_space "   " = true) by reflexivity.
  split; [exact H|].
  exact (proj1 (ask_blank_question answering "   " "s1" fresh_world H)).
Defined.

(** C10: the read and the append both use the key [session_key]: the id
    trimmed, and "default" when nothing is left. So an id and the same id
    with whitespace around it, and the ids "" and "default", read and
    write the same history. *)
Theorem session_ids_normalised store session_id question answer l r :
  all_space l = true -> all_space r = true ->
  let padded := l +:+ session_id +:+ r in
  _get_history store session_id
  = render_history (last5 (stored store (session_key session_id)))
  /\ _save_history store session_id question answer
     = <[ session_key session_id :=
            stored store (session_key session_id) ++ [(question, answer)] ]> store
  /\ session_key session_id
     = (if truthy (strip session_id) then strip session_id else "default")
  /\ (all_space session_id = true -> session_key session_id = "default")
  /\ session_key padded = session_key session_id
  /\ _get_history store padded = _get_history store session_id
  /\ _save_history store padded question answer
     = _save_history store session_id question answer
  /\ _get_history store "" = _get_history store "default"
  /\ _save_history store "" question answer
     = _save_history store "default" question answer.
Proof.
  intros Hl Hr padded.
  pose proof (session_key_padding l session_id r Hl Hr) as Hpad.
  repeat split.
  - apply _save_history_eq.
  - intros H. unfold session_key. now rewrite (strip_all_space _ H).
  - exact Hpad.
  - now apply _get_history_key.
  - now apply _save_history_key.
Qed.

Lemma session_ids_normalised_witness :
  all_space " " = true /\ all_space "  " = true
  /\ _get_history (_save_history ∅ "s1" "q" "a") (" " +:+ "s1" +:+ "  ")
     = _get_history (_save_history ∅ "s1" "q" "a") "s1".
Proof.
  assert (Hl : all_space " " = true) by reflexivity.
  assert (Hr : all_space "  " = true) by reflexivity.
  split; [exact Hl | split; [exact Hr|]].
  pose proof (session_ids_normalised (_save_history ∅ "s1" "q" "a") "s1" "q" "a"
                " " "  " Hl Hr) as H.
  cbv zeta in H. exact (proj1 (proj2 (proj2 (proj2 (proj2 (proj2 H)))))).
Defined.

(* ===================================================================== *)
(** ** The index store *)
(* ===================================================================== *)

Lemma identified_spec doc :
  identified doc = true ->
  truthy (video_id (metadata doc)) = true
  /\ doc_vid doc = video_id (metadata doc).
Proof.
  unfold identified, doc_vid. intros H. apply andb_true_iff in H.
  destruct H as [Ht He]. apply String.eqb_eq in He. auto.
Qed.

(** With every lookup answering, the loop finds the ids of the batch that
    the collection has entries for. *)
Lemma scan_existing_spec env db vids :
  (forall v, lookup_raises env v = false) ->
  forall acc v,
    v ∈ scan_existing env db vids acc
    <-> v ∈ acc \/ (v ∈ vids /\ truthy v = true /\ has_entries db v = true).
Proof.
  intros Hup. induction vids as [|x vids IH]; intros acc v; cbn [scan_existing].
  - split; [auto | intros [H | [H _]]; [exact H | inversion H]].
  - destruct (truthy x) eqn:Ht.
    + rewrite Hup. destruct (has_entries db x) eqn:Hhas; rewrite IH.
      * rewrite elem_of_union, elem_of_singleton, elem_of_cons.
        split; [intros [[-> | H] | (H & H1 & H2)]; auto 6 | ].
        intros [H | ([-> | H] & H1 & H2)]; auto 6.
      * rewrite elem_of_cons.
        split; [intros [H | (H & H1 & H2)]; auto 6 | ].
        intros [H | ([-> | H] & H1 & H2)]; [auto | congruence | auto 6].
    + rewrite IH, elem_of_cons.
      split; [intros [H | (H & H1 & H2)]; auto 6 | ].
      intros [H | ([-> | H] & H1 & H2)]; [auto | congruence | auto 6].
  Qed.

Lemma batch_video_ids_identified documents doc :
  In doc documents -> identified doc = true ->
  video_id (metadata doc) ∈ batch_video_ids documents.
Proof.
  intros Hin Hid. apply identified_spec in Hid. destruct Hid as [Ht Hv].
  unfold batch_video_ids. apply elem_of_list_to_set, list_elem_of_In.
  apply in_map_iff. exists doc. split; [exact Hv|].
  apply filter_In. auto.
Qed.

Lemma batch_video_ids_unidentified documents :
  Forall (fun doc => truthy (video_id (metadata doc)) = false) documents ->
  batch_video_ids documents = ∅.
Proof.
  intros H. unfold batch_video_ids.
  replace (List.filter (fun doc => truthy (video_id (metadata doc))) documents)
    with (@nil Document); [reflexivity|].
  induction H as [|d ds Hd _ IH]; simpl; [reflexivity|]. now rewrite Hd.
Qed.

Lemma filter_none {A} (f : A -> bool) l :
  (forall x, In x l -> f x = false) -> List.filter f l = [].
Proof.
  induction l as [|a l IH]; intros H; simpl; [reflexivity|].
  rewrite (H a) by now left. apply IH. intros x Hx. apply H. now right.
Qed.

(** C3, as stated, fails: a batch whose chunks carry no video id is
    written whole, also when the collection already holds it; and next to
    a chunk that names its video, a chunk without video id is not written
    although the collection holds nothing under its id. *)
Lemma unidentified_batch_written_twice :
  let batch := [chunk_of "" "elephants have trunks"] in
  let db := batch in
  let mixed := [chunk_of "" "elephants have trunks";
                chunk_of "dQw4w9WgXcQ" "trunks are strong"] in
  Forall (fun doc => has_entries db (video_id (metadata doc)) = true) batch
  /\ index_documents store_up batch db = Returned (db ++ batch)
  /\ index_documents store_up batch db <> Returned db
  /\ has_entries [] "" = false
  /\ index_documents store_up mixed []
     = Returned [chunk_of "dQw4w9WgXcQ" "trunks are strong"].
Proof.
  cbn zeta. split; [|split; [|split; [|split]]].
  - repeat constructor.
  - vm_compute. reflexivity.
  - vm_compute. discriminate.
  - reflexivity.
  - vm_compute. reflexivity.
Qed.

(** C3, amended: when the credential is set and the lookups answer, a
    batch in which every chunk names its video (a [video_id] that is not
    empty and has no whitespace around it) is written without the chunks
    whose [video_id] the collection already has: nothing is written when
    it has them all, and only the chunks of new videos otherwise. A batch
    in which no chunk has a [video_id] is written whole. *)
Theorem index_documents_dedup env documents db :
  truthy (strip (embed_api_key env)) = true ->
  (forall v, lookup_raises env v = false) ->
  (Forall (fun doc => identified doc = true) documents ->
   index_documents env documents db
   = Returned (db ++ List.filter (is_new db) documents)
   /\ (Forall (fun doc => has_entries db (video_id (metadata doc)) = true) documents ->
       index_documents env documents db = Returned db))
  /\ (Forall (fun doc => truthy (video_id (metadata doc)) = false) documents ->
      index_documents env documents db = Returned (db ++ documents)).
Proof.
  intros Hkey Hup. split.
  - intros Hid.
    assert (Hmain : index_documents env documents db
                    = Returned (db ++ List.filter (is_new db) documents)).
    { unfold index_documents.
      destruct documents as [|d0 ds] eqn:Hdocs; [now rewrite app_nil_r|].
      rewrite <- Hdocs in *. rewrite Hkey.
      rewrite Forall_forall in Hid.
      assert (Hin0 : In d0 documents) by (rewrite Hdocs; now left).
      destruct (decide (batch_video_ids documents = ∅)) as [He|_].
      { pose proof (batch_video_ids_identified documents d0 Hin0
                      (Hid d0 (proj2 (list_elem_of_In _ _) Hin0))) as H.
        rewrite He in H. set_solver. }
      set (existing := scan_existing env db (elements (batch_video_ids documents)) ∅).
      set (to_index := batch_video_ids documents ∖ existing).
      assert (Hfilter :
                List.filter (fun doc => bool_decide (doc_vid doc ∈ to_index)) documents
                = List.filter (is_new db) documents).
      { apply filter_ext_in. intros d Hd.
        pose proof (Hid d (proj2 (list_elem_of_In _ _) Hd)) as Hidd.
        pose proof (batch_video_ids_identified documents d Hd Hidd) as Hmem.
        apply identified_spec in Hidd. destruct Hidd as [Ht Hv].
        rewrite Hv. unfold is_new, to_index, existing.
        destruct (has_entries db (video_id (metadata d))) eqn:Hhas; simpl.
        - apply bool_decide_eq_false. rewrite elem_of_difference.
          intros [_ Hnot]. apply Hnot. apply (scan_existing_spec _ _ _ Hup).
          right. rewrite elem_of_elements. auto.
        - apply bool_decide_eq_true. rewrite elem_of_difference.
          split; [exact Hmem|]. intros Hex.
          apply (scan_existing_spec _ _ _ Hup) in Hex.
          destruct Hex as [Hex | (_ & _ & Hex)]; [set_solver | congruence]. }
      destruct (decide (to_index = ∅)) as [He|_].
      - rewrite <- Hfilter, filter_none; [now rewrite app_nil_r|].
        intros d _. apply bool_decide_eq_false. rewrite He. set_solver.
      - rewrite Hfilter.
        destruct (List.filter (is_new db) documents);
          [now rewrite app_nil_r | reflexivity]. }
    split; [exact Hmain|].
    intros Hall. rewrite Hmain, filter_none; [now rewrite app_nil_r|].
    intros d Hd. rewrite Forall_forall in Hall. unfold is_new.
    now rewrite (Hall d (proj2 (list_elem_of_In _ _) Hd)).
  - intros Hnone. unfold index_documents.
    destruct documents as [|d0 ds] eqn:Hdocs; [now rewrite app_nil_r|].
    rewrite <- Hdocs in *. rewrite Hkey.
    rewrite (batch_video_ids_unidentified _ Hnone).
    destruct (decide (∅ = ∅)) as [_|Hne]; [reflexivity | congruence].
Qed.

Lemma index_documents_dedup_witness :
  let db := [chunk_of "jNQXAC9IVRw" "elephants have trunks"] in
  let batch := [chunk_of "jNQXAC9IVRw" "elephants have trunks";
                chunk_of "dQw4w9WgXcQ" "trunks are strong"] in
  Forall (fun doc => identified doc = true) batch
  /\ index_documents store_up batch db
     = Returned (db ++ [chunk_of "dQw4w9WgXcQ" "trunks are strong"]).
Proof.
  cbn zeta.
  assert (H : Forall (fun doc => identified doc = true)
                [chunk_of "jNQXAC9IVRw" "elephants have trunks";
                 chunk_of "dQw4w9WgXcQ" "trunks are strong"])
    by (repeat constructor).
  split; [exact H|].
  exact (proj1 (proj1 (index_documents_dedup store_up _
                         [chunk_of "jNQXAC9IVRw" "elephants have trunks"]
                         eq_refl (fun _ => eq_refl)) H)).
Defined.

(* ===================================================================== *)
(** ** Further properties of [build_chunks] *)
(* ===================================================================== *)

Section ChunkerMore.

Variable segments : list TranscriptSegment.
Variables target_words overlap_words : Z.
Variables (vid vtitle vurl : string).

Local Abbreviation takeM := (take_chunk target_words).
Local Abbreviation passM :=
  (pass segments target_words overlap_words vid vtitle vurl).
Local Abbreviation loopM :=
  (chunk_loop segments target_words overlap_words vid vtitle vurl).
Local Abbreviation mkdocM := (make_document vid vtitle vurl).

(** The chunk is made of the segments with text among those read. *)
Lemma take_chunk_reads rest :
  forall i chunk wc i1 chunk1 wc1,
    takeM rest (i, chunk, wc) = (i1, chunk1, wc1) ->
    chunk1
    = chunk ++ List.filter (fun s => truthy (seg_text s))
                 (take (length rest - unread target_words wc rest) rest).
Proof.
  induction rest as [|seg rest IH]; intros i chunk wc i1 chunk1 wc1 H;
    cbn [take_chunk unread length] in *.
  - inversion H; subst. simpl. now rewrite app_nil_r.
  - destruct (wc <? target_words)%Z.
    + pose proof (unread_le target_words rest (wc + weight seg)%Z) as Hle.
      replace (S (length rest) - unread target_words (wc + weight seg) rest)
        with (S (length rest - unread target_words (wc + weight seg) rest))
        by lia.
      cbn [take List.filter].
      destruct (truthy (seg_text seg)) eqn:Htext.
      * apply IH in H. rewrite H, <- app_assoc. reflexivity.
      * apply IH in H. rewrite (weight_blank _ Htext), Z.add_0_r. exact H.
    + inversion H; subst. rewrite Nat.sub_diag. simpl. now rewrite app_nil_r.
Qed.

(** The first segment with text opens the chunk. *)
Lemma take_chunk_first blanks :
  forall seg rest i i1 chunk wc,
    (0 < target_words)%Z ->
    Forall (fun s => truthy (seg_text s) = false) blanks ->
    truthy (seg_text seg) = true ->
    takeM (blanks ++ seg :: rest) (i, [], 0%Z) = (i1, chunk, wc) ->
    exists added, chunk = seg :: added.
Proof.
  induction blanks as [|b blanks IH]; intros seg rest i i1 chunk wc Ht Hb Hs H;
    cbn [app take_chunk] in H;
    replace (0 <? target_words)%Z with true in H
      by (symmetry; apply Z.ltb_lt; lia).
  - rewrite Hs in H. apply take_chunk_parts in H.
    destruct H as (added & -> & _). now exists added.
  - inversion Hb as [|? ? Hb1 Hb2]; subst. rewrite Hb1 in H.
    eapply IH; eauto.
Qed.

(** A pass with a chunk covers every segment with text it has read and
    resumes within what it has read. *)
Lemma pass_covers i documents i' documents' :
  i < length segments ->
  passM i documents = Next i' documents' ->
  exists d e,
    documents' = documents ++ [d]
    /\ i' <= e
    /\ forall k seg,
         i <= k < e -> segments !! k = Some seg ->
         truthy (seg_text seg) = true -> covers d seg.
Proof.
  intros Hi. unfold pass.
  destruct (takeM (drop i segments) (i, [], 0%Z)) as [[i1 chunk] wc] eqn:Htake.
  destruct chunk as [|c chunk]; [discriminate|].
  intros H. inversion H; subst.
  pose proof Htake as Hreads. apply take_chunk_reads in Hreads.
  pose proof Htake as Hpos. apply take_chunk_position in Hpos.
  destruct Hpos as [Hpos _].
  rewrite length_drop in Hpos, Hreads. simpl in Hpos, Hreads.
  pose proof (advance_bounds overlap_words (c :: chunk) ltac:(discriminate)) as Hadv.
  pose proof (unread_le target_words (drop i segments) 0%Z) as Hun.
  rewrite length_drop in Hun.
  exists (mkdocM (c :: chunk)),
         (length segments - unread target_words 0%Z (drop i segments)).
  split; [reflexivity|]. split; [simpl in *; lia|].
  intros k seg Hk Hlook Htext.
  assert (Hin : In seg (c :: chunk)).
  { rewrite Hreads. apply filter_In. split; [|exact Htext].
    apply list_elem_of_In, list_elem_of_lookup. exists (k - i).
    rewrite lookup_take_lt by lia. rewrite lookup_drop.
    replace (i + (k - i)) with k by lia. exact Hlook. }
  apply in_split in Hin. destruct Hin as (before & after & Heq).
  exists before, after. simpl. now rewrite <- Heq.
Qed.

(** A pass that breaks has found no text from [i] on. *)
Lemma pass_break_blank i documents documents' :
  (0 < target_words)%Z ->
  passM i documents = Break documents' ->
  forall k seg,
    i <= k -> segments !! k = Some seg -> truthy (seg_text seg) = false.
Proof.
  intros Ht. unfold pass.
  destruct (takeM (drop i segments) (i, [], 0%Z)) as [[i1 chunk] wc] eqn:Htake.
  destruct chunk as [|c chunk]; [|discriminate].
  intros _ k seg Hk Hlook.
  destruct (truthy (seg_text seg)) eqn:Htext; [|reflexivity].
  exfalso. eapply take_chunk_nonempty; [exact Ht | | exact Htake | reflexivity].
  apply Exists_exists. exists seg. split; [|exact Htext].
  apply list_elem_of_lookup. exists (k - i). rewrite lookup_drop.
  replace (i + (k - i)) with k by lia. exact Hlook.
Qed.

(** The loop leaves no segment with text uncovered. *)
Lemma chunk_loop_covers gas fuel :
  forall i documents out,
    length segments < gas -> (0 < target_words)%Z ->
    loopM gas fuel i documents = Some out ->
    (forall k seg,
       k < i -> segments !! k = Some seg -> truthy (seg_text seg) = true ->
       exists d, In d documents /\ covers d seg) ->
    forall k seg,
      segments !! k = Some seg -> truthy (seg_text seg) = true ->
      exists d, In d out /\ covers d seg.
Proof.
  induction fuel as [|fuel IH]; intros i documents out Hgas Ht H Hinv;
    cbn [chunk_loop] in H; [discriminate|].
  destruct (Nat.ltb_spec i (length segments)) as [Hi|Hi].
  - rewrite chunk_body_eq in H by assumption. cbn [mbind option_bind] in H.
    destruct (passM i documents) as [i' documents'|documents'] eqn:Hpass.
    + destruct (pass_covers _ _ _ _ Hi Hpass) as (d & e & -> & Hie & Hcov).
      apply (IH _ _ _ Hgas Ht H). intros k seg Hk Hlook Htext.
      destruct (Nat.lt_ge_cases k i) as [Hlt|Hge].
      * destruct (Hinv k seg Hlt Hlook Htext) as (d0 & Hd0 & Hc).
        exists d0. split; [apply in_or_app; now left | exact Hc].
      * exists d. split; [apply in_or_app; right; now left|].
        apply (Hcov k seg); [lia | exact Hlook | exact Htext].
    + pose proof (pass_break_blank _ _ _ Ht Hpass) as Hblank.
      apply pass_break in Hpass. subst documents'. injection H as <-.
      intros k seg Hlook Htext.
      destruct (Nat.lt_ge_cases k i) as [Hlt|Hge]; [eauto|].
      rewrite (Hblank k seg Hge Hlook) in Htext. discriminate.
  - injection H as <-. intros k seg Hlook Htext.
    apply (Hinv k seg); [|exact Hlook | exact Htext].
    apply lookup_lt_Some in Hlook. lia.
Qed.

(** The loop appends at most one document per index left. *)
Lemma chunk_loop_count gas fuel :
  forall i documents out,
    length segments < gas ->
    loopM gas fuel i documents = Some out ->
    length out <= length documents + (length segments - i).
Proof.
  induction fuel as [|fuel IH]; intros i documents out Hgas H;
    cbn [chunk_loop] in H; [discriminate|].
  destruct (Nat.ltb_spec i (length segments)) as [Hi|Hi].
  - rewrite chunk_body_eq in H by assumption. cbn [mbind option_bind] in H.
    destruct (passM i documents) as [i' documents'|documents'] eqn:Hpass.
    + pose proof Hpass as Hadv. apply pass_advances in Hadv.
      apply pass_next in Hpass. destruct Hpass as (d & -> & _).
      apply IH in H; [|exact Hgas]. rewrite length_app in H. simpl in H. lia.
    + apply pass_break in Hpass. subst. injection H as <-. lia.
  - injection H as <-. lia.
Qed.

End ChunkerMore.

(** [build_chunks] is what the outer loop returns, started at index 0
    with no documents; without segments it is empty. *)
Lemma build_chunks_loop transcript target_words overlap_words :
  (tr_segments transcript = [] /\ build_chunks transcript target_words overlap_words = [])
  \/ chunk_loop (tr_segments transcript) target_words overlap_words
       (or_else (tr_video_id transcript) "")
       (or_else (tr_title transcript) "Untitled video")
       (or_else (tr_url transcript) "")
       (S (length (tr_segments transcript))) (S (length (tr_segments transcript)))
       0 []
     = Some (build_chunks transcript target_words overlap_words).
Proof.
  pose proof (build_chunks_fuel_enough transcript target_words overlap_words
                (S (length (tr_segments transcript))) ltac:(lia)) as H.
  unfold build_chunks_fuel in H.
  destruct (tr_segments transcript) as [|seg segs] eqn:Hsegs.
  - left. split; [reflexivity | now injection H as <-].
  - right. exact H.
Qed.

(** Every chunk carries the identity of the transcript, with the defaults
    for fields that are missing or empty: no id, the title
    "Untitled video", no url. *)
Theorem build_chunks_metadata transcript target_words overlap_words d :
  In d (build_chunks transcript target_words overlap_words) ->
  video_id (metadata d)
  = match tr_video_id transcript with
    | Some (String c s) => String c s
    | _ => ""
    end
  /\ video_title (metadata d)
     = match tr_title transcript with
       | Some (String c s) => String c s
       | _ => "Untitled video"
       end
  /\ url (metadata d)
     = match tr_url transcript with
       | Some (String c s) => String c s
       | _ => ""
       end.
Proof.
  intros Hin.
  pose proof (build_chunks_produced transcript target_words overlap_words) as Hall.
  rewrite Forall_forall in Hall. apply list_elem_of_In in Hin.
  destruct (Hall d Hin) as (first & others & -> & _).
  cbn [make_document metadata video_id video_title url].
  unfold or_else.
  destruct (tr_video_id transcript) as [[|? ?]|],
           (tr_title transcript) as [[|? ?]|],
           (tr_url transcript) as [[|? ?]|]; auto.
Qed.

Lemma build_chunks_metadata_witness :
  let d := {| page_content := "elephants have trunks";
              metadata := {| video_id := ""; video_title := "Untitled video";
                             start_time := 0; url := "" |} |} in
  In d (build_chunks anonymous 400 50)
  /\ video_id (metadata d) = "" /\ video_title (metadata d) = "Untitled video"
  /\ url (metadata d) = "".
Proof.
  intros d.
  assert (H : In d (build_chunks anonymous 400 50)) by (vm_compute; now left).
  split; [exact H | exact (build_chunks_metadata anonymous 400 50 d H)].
Defined.

(** There are never more chunks than segments. *)
Theorem build_chunks_count_le transcript target_words overlap_words :
  length (build_chunks transcript target_words overlap_words)
  <= length (tr_segments transcript).
Proof.
  destruct (build_chunks_loop transcript target_words overlap_words)
    as [[_ ->] | H]; [simpl; lia|].
  apply chunk_loop_count in H; [|lia]. simpl in H. lia.
Qed.

(** A target of zero words, or less, gives no chunk at all. *)
Theorem build_chunks_no_target transcript target_words overlap_words :
  (target_words <= 0)%Z ->
  build_chunks transcript target_words overlap_words = [].
Proof.
  intros Ht.
  destruct (build_chunks_loop transcript target_words overlap_words)
    as [[_ ->] | H]; [reflexivity|].
  destruct (tr_segments transcript) as [|seg segs] eqn:Hsegs;
    [cbn in H; now injection H as <-|].
  cbn [chunk_loop] in H.
  replace (0 <? length (seg :: segs)) with true in H by reflexivity.
  rewrite chunk_body_eq in H by lia. cbn [mbind option_bind] in H.
  unfold pass in H. cbn [drop take_chunk] in H.
  replace (0 <? target_words)%Z with false in H
    by (symmetry; apply Z.ltb_ge; lia).
  now injection H as <-.
Qed.

Lemma build_chunks_no_target_witness :
  (0 <= 0)%Z /\ build_chunks elephants 0 50 = [].
Proof.
  assert (H : (0 <= 0)%Z) by lia.
  split; [exact H | exact (build_chunks_no_target elephants 0 50 H)].
Defined.

(** With a target of at least one word, the first chunk starts at the
    first segment that has text: segments without text before it are
    passed over, and its text opens the content. *)
Theorem build_chunks_first_chunk transcript target_words overlap_words
    blanks seg rest :
  (1 <= target_words)%Z ->
  tr_segments transcript = blanks ++ seg :: rest ->
  Forall (fun s => truthy (seg_text s) = false) blanks ->
  truthy (seg_text seg) = true ->
  exists d more others,
    build_chunks transcript target_words overlap_words = d :: more
    /\ start_time (metadata d) = int_of_float (start seg)
    /\ page_content d = strip (join " " (seg_text seg :: map seg_text others)).
Proof.
  intros Ht Hsegs Hblanks Htext.
  destruct (build_chunks_loop transcript target_words overlap_words)
    as [[Hnil _] | H].
  { rewrite Hsegs in Hnil. destruct blanks; discriminate. }
  assert (Hlen : 0 < length (tr_segments transcript)).
  { rewrite Hsegs, length_app. simpl. lia. }
  cbn [chunk_loop] in H.
  replace (0 <? length (tr_segments transcript)) with true in H
    by (symmetry; apply Nat.ltb_lt; exact Hlen).
  rewrite chunk_body_eq in H by lia. cbn [mbind option_bind] in H.
  unfold pass in H. rewrite drop_0 in H.
  destruct (take_chunk target_words (tr_segments transcript) (0, [], 0%Z))
    as [[i1 chunk] wc] eqn:Htake.
  rewrite Hsegs in Htake at 1.
  apply take_chunk_first in Htake; [|lia | exact Hblanks | exact Htext].
  destruct Htake as (added & ->).
  apply chunk_loop_output in H; [|lia].
  destruct H as (more & -> & _).
  eexists _, more, added. split; [reflexivity|]. split; reflexivity.
Qed.

Lemma build_chunks_first_chunk_witness :
  exists d more others,
    build_chunks late_speech 400 50 = d :: more
    /\ start_time (metadata d) = 3%Z
    /\ page_content d = strip (join " " ("hello there" :: map seg_text others)).
Proof.
  apply (build_chunks_first_chunk late_speech 400 50
           [mk_seg "  " 0%Q; mk_seg "" 2%Q] (mk_seg "hello there" (7 # 2)%Q)
           [mk_seg "general" 6%Q]).
  - lia.
  - reflexivity.
  - repeat constructor.
  - reflexivity.
Defined.

(** With a target of at least one word, no text is dropped: every segment
    with text is part of the content of some chunk. *)
Theorem build_chunks_covers transcript target_words overlap_words seg :
  (1 <= target_words)%Z ->
  In seg (tr_segments transcript) ->
  truthy (seg_text seg) = true ->
  exists d,
    In d (build_chunks transcript target_words overlap_words) /\ covers d seg.
Proof.
  intros Ht Hin Htext.
  destruct (build_chunks_loop transcript target_words overlap_words)
    as [[Hnil _] | H].
  { rewrite Hnil in Hin. inversion Hin. }
  apply list_elem_of_In, list_elem_of_lookup in Hin. destruct Hin as [k Hk].
  eapply chunk_loop_covers; [| | exact H | | exact Hk | exact Htext]; [lia | lia |].
  intros k' seg' Hlt. lia.
Qed.

Lemma build_chunks_covers_witness :
  exists d,
    In d (build_chunks six_words 4 3) /\ covers d (mk_seg "strong" 5%Q).
Proof.
  apply (build_chunks_covers six_words 4 3 (mk_seg "strong" 5%Q)).
  - lia.
  - simpl. tauto.
  - reflexivity.
Defined.

(* ===================================================================== *)
(** ** Counting the words of joined texts *)
(* ===================================================================== *)

Lemma split_chars_spaces sp :
  forallb is_space sp = true -> split_chars [] sp = [].
Proof.
  induction sp as [|c sp IH]; simpl; [reflexivity|].
  intros H. apply andb_true_iff in H. destruct H as [Hc Hsp].
  rewrite Hc. now apply IH.
Qed.

Lemma split_chars_leading sp l :
  forallb is_space sp = true -> split_chars [] (sp ++ l) = split_chars [] l.
Proof.
  induction sp as [|c sp IH]; simpl; [reflexivity|].
  intros H. apply andb_true_iff in H. destruct H as [Hc Hsp].
  rewrite Hc. now apply IH.
Qed.

(** A space between two texts separates their words. *)
Lemma split_chars_sep l1 :
  forall cur c l2,
    is_space c = true ->
    length (split_chars cur (l1 ++ c :: l2))
    = length (split_chars cur l1) + length (split_chars [] l2).
Proof.
  induction l1 as [|a l1 IH]; intros cur c l2 Hc; simpl.
  - rewrite Hc. destruct cur; reflexivity.
  - destruct (is_space a).
    + destruct cur; simpl; now rewrite IH.
    + now apply IH.
Qed.

Lemma split_chars_trailing l sp :
  forall cur,
    forallb is_space sp = true ->
    length (split_chars cur (l ++ sp)) = length (split_chars cur l).
Proof.
  intros cur Hsp. destruct sp as [|c sp]; [now rewrite app_nil_r|].
  simpl in Hsp. apply andb_true_iff in Hsp. destruct Hsp as [Hc Hsp].
  rewrite split_chars_sep by exact Hc.
  rewrite (split_chars_spaces sp Hsp). simpl. lia.
Qed.

Lemma lstrip_chars_split l :
  exists sp, forallb is_space sp = true /\ l = sp ++ lstrip_chars l.
Proof.
  induction l as [|c l IH]; simpl.
  - now exists [].
  - destruct (is_space c) eqn:Hc.
    + destruct IH as (sp & Hsp & Heq). exists (c :: sp). simpl.
      rewrite Hc, Hsp. split; [reflexivity | now rewrite <- Heq].
    + now exists [].
Qed.

Lemma rstrip_chars_split l :
  exists sp, forallb is_space sp = true /\ l = rstrip_chars l ++ sp.
Proof.
  unfold rstrip_chars.
  destruct (lstrip_chars_split (rev l)) as (sp & Hsp & Heq).
  exists (rev sp). split; [now rewrite forallb_rev|].
  rewrite <- rev_app_distr, <- Heq. now rewrite rev_involutive.
Qed.

(** [_word_count] is the number of words, also for the empty text. *)
Lemma _word_count_chars s :
  _word_count s = length (split_chars [] (list_ascii_of_string s)).
Proof. unfold _word_count, split. destruct s; reflexivity. Qed.

(** Trimming does not change the words. *)
Lemma _word_count_strip s : _word_count (strip s) = _word_count s.
Proof.
  rewrite !_word_count_chars. unfold strip.
  rewrite list_ascii_of_string_of_list_ascii.
  destruct (lstrip_chars_split (list_ascii_of_string s)) as (sp1 & Hsp1 & Heq1).
  destruct (rstrip_chars_split (lstrip_chars (list_ascii_of_string s)))
    as (sp2 & Hsp2 & Heq2).
  rewrite Heq1 at 2. rewrite split_chars_leading by exact Hsp1.
  rewrite Heq2 at 2. now rewrite split_chars_trailing.
Qed.

(** The words of texts joined by a space add up. *)
Lemma _word_count_join texts :
  _word_count (join " " texts)
  = fold_right (fun t acc => _word_count t + acc) 0 texts.
Proof.
  unfold join. induction texts as [|t texts IH]; [reflexivity|].
  destruct texts as [|t' texts].
  - simpl. lia.
  - change (String.concat " " (t :: t' :: texts))
      with (t +:+ " " +:+ String.concat " " (t' :: texts)).
    cbn [fold_right] in *. rewrite <- IH.
    rewrite !_word_count_chars, !list_ascii_of_string_app.
    cbn [list_ascii_of_string app].
    now rewrite split_chars_sep.
Qed.

(** The content of a chunk has the words of its segments. *)
Lemma make_document_words vid vtitle vurl chunk :
  Z.of_nat (_word_count (page_content (make_document vid vtitle vurl chunk)))
  = words_of chunk.
Proof.
  cbn [make_document page_content].
  rewrite _word_count_strip, _word_count_join.
  induction chunk as [|seg chunk IH]; [reflexivity|].
  cbn [map fold_right words_of]. rewrite Nat2Z.inj_add.
  unfold words_of in IH. rewrite IH. reflexivity.
Qed.

Section ChunkSizes.

Variable segments : list TranscriptSegment.
Variables target_words overlap_words : Z.
Variables (vid vtitle vurl : string).

Lemma words_of_app a b : words_of (a ++ b) = (words_of a + words_of b)%Z.
Proof.
  unfold words_of. induction a as [|s a IH]; simpl; [lia|]. rewrite IH. lia.
Qed.

(** [word_count] is the words of the chunk, and the chunk stops growing
    once the target is reached: all but its last segment stay below it. *)
Lemma take_chunk_words rest :
  forall i chunk wc i1 chunk1 wc1,
    take_chunk target_words rest (i, chunk, wc) = (i1, chunk1, wc1) ->
    wc = words_of chunk ->
    chunk1 = chunk
    \/ exists front last,
         chunk1 = front ++ [last] /\ (words_of front < target_words)%Z
         /\ In last rest.
Proof.
  induction rest as [|seg rest IH]; intros i chunk wc i1 chunk1 wc1 H Hwc;
    cbn [take_chunk] in H.
  - inversion H; subst. now left.
  - destruct (wc <? target_words)%Z eqn:Hlt; [|inversion H; subst; now left].
    apply Z.ltb_lt in Hlt.
    destruct (truthy (seg_text seg)) eqn:Htext.
    + apply IH in H.
      * right. destruct H as [-> | (front & last & -> & Hfront & Hin)].
        -- exists chunk, seg. split; [reflexivity|]. split; [lia | now left].
        -- exists front, last. split; [reflexivity|]. split; [exact Hfront | now right].
      * rewrite words_of_app. unfold words_of at 2. simpl. lia.
    + apply IH in H; [|exact Hwc].
      destruct H as [-> | (front & last & -> & Hfront & Hin)]; [now left|].
      right. exists front, last. split; [reflexivity|].
      split; [exact Hfront | now right].
Qed.

(** Every document appended is built from a run of segments whose words
    without the last segment are below the target. *)
Lemma chunk_loop_sizes gas fuel :
  forall i documents out,
    length segments < gas ->
    chunk_loop segments target_words overlap_words vid vtitle vurl
      gas fuel i documents = Some out ->
    exists more,
      out = documents ++ more
      /\ Forall (fun d =>
                   exists front last,
                     d = make_document vid vtitle vurl (front ++ [last])
                     /\ (words_of front < target_words)%Z
                     /\ In last segments) more.
Proof.
  induction fuel as [|fuel IH]; intros i documents out Hgas H;
    cbn [chunk_loop] in H; [discriminate|].
  destruct (i <? length segments).
  - rewrite chunk_body_eq in H by assumption. cbn [mbind option_bind] in H.
    unfold pass in H.
    destruct (take_chunk target_words (drop i segments) (i, [], 0%Z))
      as [[i1 chunk] wc] eqn:Htake.
    destruct chunk as [|c chunk].
    + injection H as <-. exists []. split; [now rewrite app_nil_r | constructor].
    + apply take_chunk_words in Htake; [|reflexivity].
      destruct Htake as [Heq | (front & last & Heq & Hfront & Hin)];
        [discriminate|].
      apply IH in H; [|exact Hgas]. destruct H as (more & -> & Hmore).
      exists (make_document vid vtitle vurl (c :: chunk) :: more).
      split; [now rewrite <- app_assoc|].
      constructor; [|exact Hmore].
      exists front, last. rewrite Heq. split; [reflexivity|].
      split; [exact Hfront | eapply In_drop; exact Hin].
  - injection H as <-. exists []. split; [now rewrite app_nil_r | constructor].
Qed.

End ChunkSizes.

(** A chunk stops growing as soon as the target is reached: the words of
    its content are those of its segments, at least one, and without the
    last segment they are fewer than [target_words]. *)
Theorem build_chunks_chunk_size transcript target_words overlap_words d :
  In d (build_chunks transcript target_words overlap_words) ->
  exists front last,
    In last (tr_segments transcript)
    /\ page_content d = strip (join " " (map seg_text (front ++ [last])))
    /\ Z.of_nat (_word_count (page_content d)) = (words_of front + weight last)%Z
    /\ (words_of front < target_words)%Z
    /\ 1 <= _word_count (page_content d).
Proof.
  intros Hin.
  destruct (build_chunks_loop transcript target_words overlap_words)
    as [[_ Hnil] | H]; [rewrite Hnil in Hin; inversion Hin|].
  pose proof (build_chunks_produced transcript target_words overlap_words) as Hprod.
  apply chunk_loop_sizes in H; [|lia]. destruct H as (more & Heq & Hall).
  simpl in Heq. rewrite Heq in Hin, Hprod.
  rewrite Forall_forall in Hall, Hprod. apply list_elem_of_In in Hin.
  destruct (Hall d Hin) as (front & last & -> & Hfront & Hlast).
  destruct (Hprod _ Hin) as (first & others & Hd & _ & Htext & _).
  exists front, last. split; [exact Hlast|]. split; [reflexivity|].
  assert (Hone : forall s, words_of [s] = weight s)
    by (intros s; unfold words_of; simpl; lia).
  assert (Hnn : forall l, (0 <= words_of l)%Z).
  { intros l. unfold words_of. induction l as [|s l IH]; simpl; [lia|].
    pose proof (weight_nonneg s). lia. }
  apply (f_equal (fun x => Z.of_nat (_word_count (page_content x)))) in Hd.
  rewrite !make_document_words in Hd.
  change (first :: others) with ([first] ++ others) in Hd.
  rewrite !words_of_app, !Hone in Hd.
  pose proof (make_document_words
                (or_else (tr_video_id transcript) "")
                (or_else (tr_title transcript) "Untitled video")
                (or_else (tr_url transcript) "") (front ++ [last])) as Hw.
  rewrite words_of_app, Hone in Hw.
  split; [exact Hw|]. split; [exact Hfront|].
  pose proof (weight_text first Htext). pose proof (Hnn others). lia.
Qed.

Lemma build_chunks_chunk_size_witness :
  let d := {| page_content := "trunks are strong they can lift heavy things";
              metadata := {| video_id := "jNQXAC9IVRw";
                             video_title := "Me at the zoo";
                             start_time := 5;
                             url := "https://www.youtube.com/watch?v=jNQXAC9IVRw" |} |} in
  In d (build_chunks elephants 5 2)
  /\ exists front last,
       In last (tr_segments elephants)
       /\ page_content d = strip (join " " (map seg_text (front ++ [last])))
       /\ Z.of_nat (_word_count (page_content d)) = (words_of front + weight last)%Z
       /\ (words_of front < 5)%Z
       /\ 1 <= _word_count (page_content d).
Proof.
  intros d.
  assert (H : In d (build_chunks elephants 5 2))
    by (vm_compute; right; now left).
  split; [exact H | exact (build_chunks_chunk_size elephants 5 2 d H)].
Defined.

Section NoOverlap.

Variable segments : list TranscriptSegment.
Variables target_words overlap_words : Z.
Variables (vid vtitle vurl : string).
Hypothesis target_pos : (0 < target_words)%Z.
Hypothesis no_overlap : (overlap_words <= 0)%Z.

Lemma total_words_app a b :
  total_words (a ++ b) = (total_words a + total_words b)%Z.
Proof.
  unfold total_words. induction a as [|d a IH]; simpl; [lia|]. rewrite IH. lia.
Qed.

Lemma words_of_text_only l :
  words_of (List.filter (fun s => truthy (seg_text s)) l) = words_of l.
Proof.
  unfold words_of. induction l as [|s l IH]; simpl; [reflexivity|].
  destruct (truthy (seg_text s)) eqn:Ht; simpl; rewrite IH; [reflexivity|].
  rewrite (weight_blank _ Ht). lia.
Qed.

Lemma words_of_blank l :
  Forall (fun s => truthy (seg_text s) = false) l -> words_of l = 0%Z.
Proof.
  unfold words_of. induction 1 as [|s l Hs _ IH]; simpl; [reflexivity|].
  rewrite IH, (weight_blank _ Hs). lia.
Qed.

(** Without overlap every pass hands the words it has read to one
    document and resumes after them, so the loop adds the words of the
    segments from [i] on. *)
Lemma chunk_loop_words gas fuel :
  forall i documents out,
    length segments < gas -> i <= length segments ->
    chunk_loop segments target_words overlap_words vid vtitle vurl
      gas fuel i documents = Some out ->
    total_words out = (total_words documents + words_of (drop i segments))%Z.
Proof.
  induction fuel as [|fuel IH]; intros i documents out Hgas Hi H;
    cbn [chunk_loop] in H; [discriminate|].
  destruct (Nat.ltb_spec i (length segments)) as [Hlt|Hge].
  - rewrite chunk_body_eq in H by assumption. cbn [mbind option_bind] in H.
    destruct (pass segments target_words overlap_words vid vtitle vurl i documents)
      as [i' documents'|documents'] eqn:Hpass.
    + unfold pass in Hpass.
      destruct (take_chunk target_words (drop i segments) (i, [], 0%Z))
        as [[i1 chunk] wc] eqn:Htake.
      destruct chunk as [|c chunk]; [discriminate|].
      injection Hpass as <- <-.
      rewrite advance_no_overlap in H by (assumption || discriminate).
      pose proof Htake as Hreads. apply take_chunk_reads in Hreads.
      apply take_chunk_position in Htake. destruct Htake as [Hpos _].
      rewrite length_drop in Hpos, Hreads. simpl in Hpos, Hreads.
      pose proof (unread_le target_words (drop i segments) 0%Z) as Hun.
      rewrite length_drop in Hun.
      apply IH in H; [|exact Hgas | simpl in *; lia].
      set (k := length segments - i - unread target_words 0%Z (drop i segments)) in *.
      replace (i1 + length (c :: chunk)) with (i + k) in H by (simpl in *; lia).
      rewrite H, total_words_app. unfold total_words at 2.
      cbn [fold_right]. rewrite make_document_words, Hreads, words_of_text_only.
      rewrite <- (take_drop k (drop i segments)) at 2.
      rewrite words_of_app, drop_drop. lia.
    + pose proof (pass_break_blank segments target_words overlap_words
                    vid vtitle vurl i documents documents' target_pos Hpass)
        as Hblank.
      apply pass_break in Hpass. subst. injection H as <-.
      rewrite words_of_blank; [lia|].
      apply Forall_forall. intros s Hs.
      apply list_elem_of_lookup in Hs. destruct Hs as [k Hk].
      rewrite lookup_drop in Hk. apply (Hblank (i + k) s); [lia | exact Hk].
  - injection H as <-. rewrite drop_ge by lia. unfold words_of. simpl. lia.
Qed.

End NoOverlap.

(** Without overlap, and with a target of at least one word, the chunks
    hold every word of the transcript exactly once: the words of all
    chunks together are the words of all segments. *)
Theorem build_chunks_no_overlap_words transcript target_words overlap_words :
  (1 <= target_words)%Z -> (overlap_words <= 0)%Z ->
  total_words (build_chunks transcript target_words overlap_words)
  = words_of (tr_segments transcript).
Proof.
  intros Ht Ho.
  destruct (build_chunks_loop transcript target_words overlap_words)
    as [[-> ->] | H]; [reflexivity|].
  apply chunk_loop_words in H; [| lia | exact Ho | lia | lia].
  rewrite H, drop_0. unfold total_words. simpl. lia.
Qed.

Lemma build_chunks_no_overlap_words_witness :
  (1 <= 4)%Z /\ (0 <= 0)%Z
  /\ total_words (build_chunks six_words 4 0) = words_of (tr_segments six_words).
Proof.
  assert (Ha : (1 <= 4)%Z) by lia. assert (Hb : (0 <= 0)%Z) by lia.
  split; [exact Ha | split; [exact Hb|]].
  exact (build_chunks_no_overlap_words six_words 4 0 Ha Hb).
Defined.

(* ===================================================================== *)
(** ** Further properties of [index_documents] *)
(* ===================================================================== *)

Lemma filter_sublist {A} (f : A -> bool) (l : list A) :
  sublist (List.filter f l) l.
Proof.
  induction l as [|a l IH]; simpl; [constructor|].
  destruct (f a); [now apply sublist_skip | now apply sublist_cons].
Qed.

Lemma has_entries_app db more v :
  has_entries (db ++ more) v = has_entries db v || has_entries more v.
Proof. unfold has_entries. apply existsb_app. Qed.

Lemma has_entries_In db d :
  In d db -> has_entries db (video_id (metadata d)) = true.
Proof.
  intros H. unfold has_entries. apply existsb_exists. exists d.
  split; [exact H | apply String.eqb_refl].
Qed.

(** With a raising lookup at once, nothing is found. *)
Lemma scan_existing_down env db vids :
  (forall v, lookup_raises env v = true) ->
  scan_existing env db vids ∅ = ∅.
Proof.
  intros Hdown. induction vids as [|v vids IH]; cbn [scan_existing];
    [reflexivity|].
  destruct (truthy v); [now rewrite Hdown | exact IH].
Qed.

(** What is written when the credential is set and every lookup answers. *)
Lemma index_documents_written env documents db :
  truthy (strip (embed_api_key env)) = true ->
  (forall v, lookup_raises env v = false) ->
  index_documents env documents db
  = Returned (db ++ List.filter (writes db documents) documents).
Proof.
  intros Hkey Hup. unfold index_documents, writes.
  destruct documents as [|d0 ds] eqn:Hdocs; [now rewrite app_nil_r|].
  rewrite <- Hdocs. rewrite Hkey.
  destruct (decide (batch_video_ids documents = ∅)) as [He|Hne].
  { assert (Hall : List.filter (fun _ : Document => true) documents = documents).
    { clear. induction documents as [|d l IH]; simpl; [reflexivity | now rewrite IH]. }
    cbn beta iota. now rewrite Hall. }
  set (existing := scan_existing env db (elements (batch_video_ids documents)) ∅).
  assert (Hfilter :
            List.filter (fun doc =>
                           bool_decide (doc_vid doc ∈ batch_video_ids documents ∖ existing))
              documents
            = List.filter (fun doc =>
                             bool_decide (doc_vid doc ∈ batch_video_ids documents)
                             && negb (truthy (doc_vid doc)
                                      && has_entries db (doc_vid doc)))
                documents).
  { apply filter_ext. intros d.
    destruct (decide (doc_vid d ∈ batch_video_ids documents)) as [Hin|Hout].
    - rewrite (bool_decide_eq_true_2 _ Hin). cbn [andb].
      destruct (truthy (doc_vid d) && has_entries db (doc_vid d)) eqn:Hb; simpl.
      + apply andb_true_iff in Hb. destruct Hb as [Ht Hhas].
        apply bool_decide_eq_false. rewrite elem_of_difference.
        intros [_ Hnot]. apply Hnot. apply (scan_existing_spec _ _ _ Hup).
        right. rewrite elem_of_elements. auto.
      + apply bool_decide_eq_true. rewrite elem_of_difference.
        split; [exact Hin|]. intros Hex.
        apply (scan_existing_spec _ _ _ Hup) in Hex.
        destruct Hex as [Hex | (_ & Ht & Hhas)]; [set_solver|].
        rewrite Ht, Hhas in Hb. discriminate.
    - rewrite (bool_decide_eq_false_2 _ Hout). cbn [andb].
      apply bool_decide_eq_false. rewrite elem_of_difference. tauto. }
  destruct (decide (batch_video_ids documents ∖ existing = ∅)) as [He|_].
  - rewrite <- Hfilter, filter_none; [now rewrite app_nil_r|].
    intros d _. apply bool_decide_eq_false. rewrite He. set_solver.
  - rewrite Hfilter.
    match goal with
    | |- context [List.filter ?f documents] =>
        destruct (List.filter f documents);
        [now rewrite app_nil_r | reflexivity]
    end.
Qed.

(** Whatever the lookups do, a call that returns has only added to the
    collection: what was stored is still there, in place, followed by
    documents of the batch in the order of the batch. *)
Theorem index_documents_appends env documents db db' :
  index_documents env documents db = Returned db' ->
  exists added, db' = db ++ added /\ sublist added documents.
Proof.
  unfold index_documents.
  destruct documents as [|d0 ds] eqn:Hdocs.
  { intros H. injection H as <-. exists []. split; [now rewrite app_nil_r | constructor]. }
  rewrite <- Hdocs.
  destruct (truthy (strip (embed_api_key env))); [|discriminate].
  destruct (decide (batch_video_ids documents = ∅)).
  { intros H. injection H as <-. exists documents. split; [reflexivity | apply sublist_reflexive || reflexivity]. }
  match goal with
  | |- context [decide (?s = ∅)] => destruct (decide (s = ∅))
  end.
  { intros H. injection H as <-. exists []. split; [now rewrite app_nil_r | apply sublist_nil_l]. }
  match goal with
  | |- context [List.filter ?f documents] =>
      pose proof (filter_sublist f documents) as Hsub;
      destruct (List.filter f documents) as [|a l] eqn:Hf
  end.
  - intros H. injection H as <-. exists []. split; [now rewrite app_nil_r | apply sublist_nil_l].
  - intros H. injection H as <-. exists (a :: l). split; [reflexivity | exact Hsub].
Qed.

Lemma index_documents_appends_witness :
  exists added,
    [chunk_of "jNQXAC9IVRw" "elephants have trunks"; chunk_of "dQw4w9WgXcQ" "trunks are strong"]
    = [chunk_of "jNQXAC9IVRw" "elephants have trunks"] ++ added
    /\ sublist added [chunk_of "jNQXAC9IVRw" "elephants have trunks";
                      chunk_of "dQw4w9WgXcQ" "trunks are strong"].
Proof.
  apply (index_documents_appends store_up
           [chunk_of "jNQXAC9IVRw" "elephants have trunks";
            chunk_of "dQw4w9WgXcQ" "trunks are strong"]
           [chunk_of "jNQXAC9IVRw" "elephants have trunks"]).
  vm_compute. reflexivity.
Defined.

Lemma writes_identified db documents d :
  In d documents -> identified d = true ->
  writes db documents d = is_new db d.
Proof.
  intros Hin Hid. unfold writes, is_new.
  pose proof (batch_video_ids_identified documents d Hin Hid) as Hmem.
  apply identified_spec in Hid. destruct Hid as [Ht Hv].
  destruct (decide (batch_video_ids documents = ∅)) as [He|_].
  { rewrite He in Hmem. set_solver. }
  rewrite Hv, (bool_decide_eq_true_2 _ Hmem), Ht. reflexivity.
Qed.

(** Indexing is idempotent for chunks that name their video: with the
    credential set and the lookups answering, indexing the same batch
    again right after a first call adds nothing. *)
Theorem index_documents_idempotent env documents db db1 :
  truthy (strip (embed_api_key env)) = true ->
  (forall v, lookup_raises env v = false) ->
  Forall (fun doc => identified doc = true) documents ->
  index_documents env documents db = Returned db1 ->
  index_documents env documents db1 = Returned db1.
Proof.
  intros Hkey Hup Hid H1.
  rewrite index_documents_written in H1 by assumption. injection H1 as <-.
  rewrite index_documents_written by assumption.
  rewrite Forall_forall in Hid.
  rewrite (filter_none
             (writes (db ++ List.filter (writes db documents) documents) documents)
             documents); [now rewrite app_nil_r|].
  intros d Hd.
  pose proof (Hid d (proj2 (list_elem_of_In _ _) Hd)) as Hidd.
  rewrite (writes_identified _ _ _ Hd Hidd). unfold is_new.
  rewrite has_entries_app.
  destruct (has_entries db (video_id (metadata d))) eqn:Hhas; [reflexivity|].
  cbn [orb]. rewrite has_entries_In; [reflexivity|].
  apply filter_In. split; [exact Hd|].
  rewrite (writes_identified _ _ _ Hd Hidd). unfold is_new. now rewrite Hhas.
Qed.

Lemma index_documents_idempotent_witness :
  Forall (fun doc => identified doc = true) zoo_batch
  /\ index_documents store_up zoo_batch [] = Returned zoo_batch
  /\ index_documents store_up zoo_batch zoo_batch = Returned zoo_batch.
Proof.
  assert (Hid : Forall (fun doc => identified doc = true) zoo_batch)
    by (repeat constructor).
  assert (H1 : index_documents store_up zoo_batch [] = Returned zoo_batch)
    by (vm_compute; reflexivity).
  split; [exact Hid | split; [exact H1|]].
  exact (index_documents_idempotent store_up zoo_batch [] zoo_batch
           eq_refl (fun _ => eq_refl) Hid H1).
Defined.

Lemma filter_all {A} (f : A -> bool) l :
  (forall x, In x l -> f x = true) -> List.filter f l = l.
Proof.
  induction l as [|a l IH]; intros H; simpl; [reflexivity|].
  rewrite (H a) by now left. f_equal. apply IH. intros x Hx. apply H. now right.
Qed.

(** When the collection cannot be looked up, nothing is held back: a
    batch in which every chunk has a video id is written whole, whatever
    the collection holds already. *)
Theorem index_documents_lookup_down env documents db :
  truthy (strip (embed_api_key env)) = true ->
  (forall v, lookup_raises env v = true) ->
  Forall (fun doc => truthy (video_id (metadata doc)) = true) documents ->
  index_documents env documents db = Returned (db ++ documents).
Proof.
  intros Hkey Hdown Hids. unfold index_documents.
  destruct documents as [|d0 ds] eqn:Hdocs; [now rewrite app_nil_r|].
  rewrite <- Hdocs in *. rewrite Hkey.
  rewrite scan_existing_down by exact Hdown.
  assert (Hmem : forall d, In d documents ->
                           doc_vid d ∈ batch_video_ids documents ∖ ∅).
  { intros d Hd. rewrite elem_of_difference. split; [|set_solver].
    unfold batch_video_ids.
    apply elem_of_list_to_set, list_elem_of_In, in_map_iff.
    exists d. split; [reflexivity|]. apply filter_In. split; [exact Hd|].
    rewrite Forall_forall in Hids. apply Hids, list_elem_of_In, Hd. }
  destruct (decide (batch_video_ids documents = ∅)) as [He|_]; [reflexivity|].
  assert (Hin0 : In d0 documents) by (rewrite Hdocs; now left).
  destruct (decide (batch_video_ids documents ∖ ∅ = ∅)) as [He|_].
  { pose proof (Hmem d0 Hin0) as H. rewrite He in H. set_solver. }
  rewrite filter_all.
  - rewrite Hdocs. reflexivity.
  - intros d Hd. apply bool_decide_eq_true. now apply Hmem.
Qed.

Lemma index_documents_lookup_down_witness :
  Forall (fun doc => truthy (video_id (metadata doc)) = true) zoo_batch
  /\ index_documents store_down zoo_batch zoo_batch
     = Returned (zoo_batch ++ zoo_batch).
Proof.
  assert (H : Forall (fun doc => truthy (video_id (metadata doc)) = true) zoo_batch)
    by (repeat constructor).
  split; [exact H|].
  exact (index_documents_lookup_down store_down zoo_batch zoo_batch
           eq_refl (fun _ => eq_refl) H).
Defined.

(** With the lookups answering, a batch that names at least one video
    never adds a chunk of a video the collection already has: every chunk
    added has an empty trimmed id or one without entries. *)
Theorem index_documents_no_duplicate env documents db db' :
  truthy (strip (embed_api_key env)) = true ->
  (forall v, lookup_raises env v = false) ->
  Exists (fun doc => truthy (video_id (metadata doc)) = true) documents ->
  index_documents env documents db = Returned db' ->
  exists added,
    db' = db ++ added
    /\ Forall (fun doc => In doc documents
                          /\ (truthy (doc_vid doc) = true ->
                              has_entries db (doc_vid doc) = false)) added.
Proof.
  intros Hkey Hup Hex H.
  rewrite index_documents_written in H by assumption. injection H as <-.
  eexists. split; [reflexivity|].
  apply Forall_forall. intros d Hd. apply list_elem_of_In, filter_In in Hd.
  destruct Hd as [Hd Hw]. split; [exact Hd|]. intros Ht.
  unfold writes in Hw.
  destruct (decide (batch_video_ids documents = ∅)) as [He|_].
  - exfalso. apply Exists_exists in Hex. destruct Hex as (x & Hx & Hxt).
    assert (Hmem : doc_vid x ∈ batch_video_ids documents).
    { unfold batch_video_ids.
      apply elem_of_list_to_set, list_elem_of_In, in_map_iff.
      exists x. split; [reflexivity|]. apply filter_In.
      split; [now apply list_elem_of_In | exact Hxt]. }
    rewrite He in Hmem. set_solver.
  - apply andb_true_iff in Hw. destruct Hw as [_ Hw].
    rewrite Ht in Hw. simpl in Hw. now apply negb_true_iff in Hw.
Qed.

Lemma index_documents_no_duplicate_witness :
  exists added,
    zoo_batch ++ [chunk_of "dQw4w9WgXcQ" "they can lift heavy things"]
    = zoo_batch ++ added
    /\ Forall (fun doc =>
                 In doc (chunk_of "dQw4w9WgXcQ" "they can lift heavy things" :: zoo_batch)
                 /\ (truthy (doc_vid doc) = true ->
                     has_entries zoo_batch (doc_vid doc) = false)) added.
Proof.
  apply (index_documents_no_duplicate store_up
           (chunk_of "dQw4w9WgXcQ" "they can lift heavy things" :: zoo_batch)
           zoo_batch).
  - reflexivity.
  - intros v. reflexivity.
  - apply Exists_cons_hd. reflexivity.
  - vm_compute. reflexivity.
Defined.

(* ===================================================================== *)
(** ** Further properties of [ask] and of the conversation memory *)
(* ===================================================================== *)

Lemma ask_build_failure_witness :
  fst (ask chain_broken "what do elephants have?" "s1" fresh_world)
  = Raised "RuntimeError" "collection cannot be opened"
  /\ _MEMORY_STORE (snd (ask chain_broken "what do elephants have?" "s1" fresh_world))
     = _MEMORY_STORE fresh_world.
Proof.
  apply (ask_build_failure chain_broken "what do elephants have?" "s1" fresh_world
           "RuntimeError" "collection cannot be opened"); reflexivity.
Defined.

(** Without the credential a question gets the fixed configuration
    message, and nothing else happens: no chain is built, no query, no
    model call, no write to the memory. *)
Theorem ask_missing_key sv question session_id w :
  truthy (strip question) = true ->
  all_space (OPENAI_API_KEY w) = true ->
  ask sv question session_id w
  = (Returned "Missing OPENAI_API_KEY. Add it to your .env file and restart the app.", w).
Proof.
  intros Hq Hkey. unfold ask. rewrite Hq, (strip_all_space _ Hkey). reflexivity.
Qed.

Lemma ask_missing_key_witness :
  ask answering "what do elephants have?" "s1" no_key_world
  = (Returned "Missing OPENAI_API_KEY. Add it to your .env file and restart the app.",
     no_key_world).
Proof.
  apply (ask_missing_key answering "what do elephants have?" "s1" no_key_world);
    reflexivity.
Defined.

(** A turn that succeeds returns the model's answer and saves exactly one
    exchange under the session: the trimmed question with that answer,
    after what was stored. The index was queried with the trimmed
    question, and the model got the history as it was before the turn. *)
Theorem ask_success sv question session_id w docs answer :
  truthy (strip question) = true ->
  truthy (strip (OPENAI_API_KEY w)) = true ->
  (exists u, build sv = Returned u) ->
  retrieve sv (strip question) = Returned docs ->
  generate sv (_get_history (_MEMORY_STORE w) session_id) (strip question) docs
  = Returned answer ->
  let w' := snd (ask sv question session_id w) in
  fst (ask sv question session_id w) = Returned answer
  /\ stored (_MEMORY_STORE w') (session_key session_id)
     = stored (_MEMORY_STORE w) (session_key session_id) ++ [(strip question, answer)]
  /\ calls w'
     = calls w ++ [BuildChain; IndexQuery (strip question);
                   ModelCall (_get_history (_MEMORY_STORE w) session_id)
                     (strip question) docs].
Proof.
  intros Hq Hkey [u Hbuild] Hr Hg. unfold ask, invoke.
  rewrite Hq, Hkey, Hbuild, Hr. cbn [_MEMORY_STORE record_call]. rewrite Hg.
  cbn [fst snd set_memory _MEMORY_STORE calls record_call].
  split; [reflexivity|]. split; [apply stored_save_same|].
  rewrite <- !app_assoc. reflexivity.
Qed.

Lemma ask_success_witness :
  let w' := snd (ask answering "  what do elephants have? " "s1" fresh_world) in
  stored (_MEMORY_STORE w') (session_key "s1")
  = [("what do elephants have?",
      "Elephants have trunks [00:00](https://www.youtube.com/watch?v=jNQXAC9IVRw&t=0).")].
Proof.
  pose proof (ask_success answering "  what do elephants have? " "s1" fresh_world []
                "Elephants have trunks [00:00](https://www.youtube.com/watch?v=jNQXAC9IVRw&t=0)."
                eq_refl eq_refl (ex_intro _ tt eq_refl) eq_refl eq_refl) as H.
  cbv zeta in H. exact (proj1 (proj2 H)).
Defined.

(** What a call of [ask] asks of its collaborators, whatever they do: at
    most one build of the chain, then at most one query of the index, with
    the trimmed question, then at most one call of the model, with the
    session's history as it was before the call. The model is never called
    without a query before it. *)
Theorem ask_calls sv question session_id w :
  let q := strip question in
  let h := _get_history (_MEMORY_STORE w) session_id in
  let extra := [BuildChain; IndexQuery q] in
  calls (snd (ask sv question session_id w)) = calls w
  \/ calls (snd (ask sv question session_id w)) = calls w ++ [BuildChain]
  \/ calls (snd (ask sv question session_id w)) = calls w ++ extra
  \/ exists docs,
       retrieve sv q = Returned docs
       /\ calls (snd (ask sv question session_id w))
          = calls w ++ extra ++ [ModelCall h q docs].
Proof.
  cbv zeta. unfold ask.
  destruct (truthy (strip question)); [|now left].
  destruct (truthy (strip (OPENAI_API_KEY w))); [|now left].
  destruct (build sv) as [u|kind msg]; [|right; now left].
  unfold invoke.
  destruct (retrieve sv (strip question)) as [docs|kind msg] eqn:Hr.
  - right. right. right. exists docs. split; [reflexivity|].
    cbn [_MEMORY_STORE record_call].
    destruct (generate sv _ (strip question) docs) as [answer|kind msg];
      cbn [snd set_memory calls record_call]; rewrite <- !app_assoc; reflexivity.
  - right. right. left. cbn [snd calls record_call].
    rewrite <- !app_assoc. reflexivity.
Qed.

(** [ask] only ever adds to the memory: under every key the exchanges
    stored before the call are still there, in order, followed by at most
    one more. *)
Theorem ask_memory_grows sv question session_id w sid :
  exists more,
    stored (_MEMORY_STORE (snd (ask sv question session_id w))) sid
    = stored (_MEMORY_STORE w) sid ++ more
    /\ length more <= 1.
Proof.
  destruct (ask_memory sv question session_id w) as [-> | [answer ->]].
  - exists []. split; [now rewrite app_nil_r | simpl; lia].
  - destruct (decide (session_key session_id = sid)) as [<-|Hne].
    + eexists. split; [apply stored_save_same | simpl; lia].
    + exists []. rewrite stored_save_other by exact Hne.
      split; [now rewrite app_nil_r | simpl; lia].
Qed.

Lemma render_history_nonempty exchanges :
  exchanges <> [] -> render_history exchanges <> "".
Proof.
  destruct exchanges as [|[q a] rest]; [congruence|]. intros _.
  unfold render_history, join. cbn [history_lines flat_map app].
  change (String.concat newline
            (("Human: " +:+ q) :: ("Assistant: " +:+ a) :: history_lines rest))
    with (("Human: " +:+ q) +:+ newline
          +:+ String.concat newline (("Assistant: " +:+ a) :: history_lines rest)).
  discriminate.
Qed.

(** The history text is empty exactly for a session with no stored
    exchange, so also for a session id never seen. *)
Theorem _get_history_empty store session_id :
  _get_history store session_id = ""
  <-> stored store (session_key session_id) = [].
Proof.
  rewrite _get_history_eq. split.
  - intros H. destruct (stored store (session_key session_id)) as [|x l] eqn:Hs;
      [reflexivity|].
    exfalso. revert H. apply render_history_nonempty.
    intros Hnil. apply (f_equal (@length _)) in Hnil. unfold last5 in Hnil.
    rewrite length_drop in Hnil. simpl in Hnil. lia.
  - intros ->. reflexivity.
Qed.

(* ===================================================================== *)
(** ** Trimmed texts and video ids *)
(* ===================================================================== *)

Lemma lstrip_chars_fix l :
  match l with
  | [] => True
  | c :: _ => is_space c = false
  end ->
  lstrip_chars l = l.
Proof. destruct l as [|c l]; simpl; [reflexivity|]. now intros ->. Qed.

Lemma lstrip_chars_idem l : lstrip_chars (lstrip_chars l) = lstrip_chars l.
Proof.
  apply lstrip_chars_fix.
  destruct (lstrip_chars l) as [|c l'] eqn:H; [exact I|].
  eapply lstrip_chars_head. exact H.
Qed.

Lemma rstrip_chars_idem l : rstrip_chars (rstrip_chars l) = rstrip_chars l.
Proof.
  unfold rstrip_chars. now rewrite rev_involutive, lstrip_chars_idem.
Qed.

(** Trimming at the right keeps a text trimmed at the left. *)
Lemma lstrip_rstrip_chars l :
  lstrip_chars l = l -> lstrip_chars (rstrip_chars l) = rstrip_chars l.
Proof.
  intros Hl. apply lstrip_chars_fix.
  destruct (rstrip_chars_split l) as (sp & _ & Heq).
  destruct (rstrip_chars l) as [|c r] eqn:Hr; [exact I|].
  rewrite Heq in Hl. simpl in Hl.
  destruct (is_space c) eqn:Hc; [|reflexivity].
  exfalso.
  assert (Hlen : length (lstrip_chars (r ++ sp)) = S (length (r ++ sp)))
    by (now rewrite Hl).
  assert (Hle : forall x, length (lstrip_chars x) <= length x).
  { clear. induction x as [|a x IH]; simpl; [lia|].
    destruct (is_space a); simpl; lia. }
  specialize (Hle (r ++ sp)). lia.
Qed.

(** Trimming twice is trimming once. *)
Lemma strip_strip s : strip (strip s) = strip s.
Proof.
  unfold strip. rewrite list_ascii_of_string_of_list_ascii. f_equal.
  rewrite lstrip_rstrip_chars by apply lstrip_chars_idem.
  apply rstrip_chars_idem.
Qed.

Lemma is_id_char_not_space c : is_id_char c = true -> is_space c = false.
Proof.
  destruct c as [[|] [|] [|] [|] [|] [|] [|] [|]]; vm_compute; congruence.
Qed.

Lemma lstrip_chars_no_space l :
  forallb is_id_char l = true -> lstrip_chars l = l.
Proof.
  intros H. apply lstrip_chars_fix. destruct l as [|c l]; [exact I|].
  simpl in H. apply andb_true_iff in H. now apply is_id_char_not_space.
Qed.

(** A video id is not changed by trimming. *)
Lemma strip_video_id v : is_video_id v = true -> strip v = v.
Proof.
  unfold is_video_id, strip. intros H. apply andb_true_iff in H.
  destruct H as [_ H].
  rewrite lstrip_chars_no_space by exact H.
  unfold rstrip_chars. rewrite lstrip_chars_no_space by (now rewrite forallb_rev).
  now rewrite rev_involutive, string_of_list_ascii_of_string.
Qed.

Lemma _validate_video_id_valid candidate original v :
  _validate_video_id candidate original = Returned v -> is_video_id v = true.
Proof.
  unfold _validate_video_id. destruct (is_video_id candidate) eqn:H; [|discriminate].
  intros E. now injection E as <-.
Qed.

Lemma match_id_after_valid pre s v :
  match_id_after pre s = Some v -> is_video_id v = true.
Proof.
  unfold match_id_after. destruct (String.prefix pre s); [|discriminate].
  destruct (is_video_id _) eqn:H; [|discriminate].
  intros E. now injection E as <-.
Qed.

(* ===================================================================== *)
(** ** Properties of the transcript fetcher *)
(* ===================================================================== *)

(** Every return of [extract_video_id] passes the test of a video id. *)
Lemma extract_video_id_is_video_id sv youtube_url v :
  extract_video_id sv youtube_url = Returned v -> is_video_id v = true.
Proof.
  unfold extract_video_id.
  destruct (truthy (strip youtube_url)); [|discriminate].
  destruct (is_video_id (strip youtube_url)) eqn:Hraw.
  { intros E. now injection E as <-. }
  destruct (urlparse sv (strip youtube_url)) as [parsed|k m]; [|discriminate].
  assert (Hfb : forall x,
             match parse_qs sv (query parsed) !! "v" with
             | Some (v0 :: _) => _validate_video_id v0 youtube_url
             | _ => x
             end = Returned v ->
             x = Returned v \/ is_video_id v = true).
  { intros x. destruct (parse_qs sv (query parsed) !! "v") as [[|v0 l]|];
      auto. intros E. right. eapply _validate_video_id_valid. exact E. }
  destruct (contains "youtu.be" (lower (netloc parsed))).
  { apply _validate_video_id_valid. }
  destruct (contains "youtube.com" (lower (netloc parsed))
            || contains "m.youtube.com" (lower (netloc parsed))
            || contains "www.youtube.com" (lower (netloc parsed))).
  - destruct (String.eqb (path parsed) "/watch").
    { apply _validate_video_id_valid. }
    destruct (match_id_after "/shorts/" (path parsed)) as [v1|] eqn:H1.
    { intros E. injection E as <-. eapply match_id_after_valid. exact H1. }
    destruct (match_id_after "/embed/" (path parsed)) as [v2|] eqn:H2.
    { intros E. injection E as <-. eapply match_id_after_valid. exact H2. }
    intros E. apply Hfb in E. destruct E as [E|E]; [discriminate | exact E].
  - intros E. apply Hfb in E. destruct E as [E|E]; [discriminate | exact E].
Qed.

(** Whatever the url and whatever [urlparse] and [parse_qs] make of it,
    an id that [extract_video_id] returns is well formed: eleven
    characters, each a letter, a digit, [_] or [-]. *)
Theorem extract_video_id_valid sv youtube_url v :
  extract_video_id sv youtube_url = Returned v ->
  is_video_id v = true
  /\ String.length v = 11
  /\ Forall (fun c => is_id_char c = true) (list_ascii_of_string v).
Proof.
  intros H. pose proof (extract_video_id_is_video_id _ _ _ H) as Hv.
  split; [exact Hv|]. unfold is_video_id in Hv. apply andb_true_iff in Hv.
  destruct Hv as [Hlen Hall]. split; [now apply Nat.eqb_eq|].
  apply Forall_forall. intros c Hc. rewrite forallb_forall in Hall.
  apply Hall. now apply list_elem_of_In.
Qed.

Lemma extract_video_id_valid_witness :
  extract_video_id zoo_services "https://youtu.be/jNQXAC9IVRw" = Returned "jNQXAC9IVRw"
  /\ String.length "jNQXAC9IVRw" = 11.
Proof.
  assert (H : extract_video_id zoo_services "https://youtu.be/jNQXAC9IVRw"
              = Returned "jNQXAC9IVRw") by reflexivity.
  split; [exact H|].
  exact (proj1 (proj2 (extract_video_id_valid zoo_services _ _ H))).
Defined.

(** An id that was extracted is accepted as it is: given back to
    [extract_video_id], also with whitespace around it, it is returned
    unchanged, whatever the parser. *)
Theorem extract_video_id_fixed sv youtube_url v l r sv' :
  extract_video_id sv youtube_url = Returned v ->
  all_space l = true -> all_space r = true ->
  extract_video_id sv' (l +:+ v +:+ r) = Returned v.
Proof.
  intros H Hl Hr. apply extract_video_id_is_video_id in H.
  unfold extract_video_id.
  rewrite strip_padding by assumption. rewrite (strip_video_id v H), H.
  destruct v; [discriminate | reflexivity].
Qed.

Lemma extract_video_id_fixed_witness :
  extract_video_id silent_services (" " +:+ "jNQXAC9IVRw" +:+ "  ")
  = Returned "jNQXAC9IVRw".
Proof.
  apply (extract_video_id_fixed zoo_services "https://youtu.be/jNQXAC9IVRw"
           "jNQXAC9IVRw" " " "  " silent_services); reflexivity.
Defined.

(** A url that is empty or all whitespace is refused with a [ValueError],
    before anything is parsed. *)
Theorem extract_video_id_empty sv youtube_url :
  all_space youtube_url = true ->
  extract_video_id sv youtube_url = Raised "ValueError" "YouTube URL is empty.".
Proof.
  intros H. unfold extract_video_id. now rewrite (strip_all_space _ H).
Qed.

Lemma extract_video_id_empty_witness :
  extract_video_id zoo_services "   " = Raised "ValueError" "YouTube URL is empty.".
Proof. apply (extract_video_id_empty zoo_services "   "). reflexivity. Defined.

Lemma max_zero_nonneg x : (0 <= max_zero x)%Q.
Proof.
  unfold max_zero. destruct (Qle_bool x 0) eqn:H; [apply Qle_refl|].
  destruct (Qlt_le_dec 0 x) as [Hlt|Hle]; [now apply Qlt_le_weak|].
  apply Qle_bool_iff in Hle. congruence.
Qed.

Lemma keep_segment_usable sv segments seg :
  Forall usable segments -> Forall usable (keep_segment sv segments seg).
Proof.
  intros H. destruct seg as [|raw_text raw_start raw_end]; [exact H|].
  cbn [keep_segment]. destruct (truthy (strip (default "" raw_text))) eqn:Ht;
    [|exact H].
  apply Forall_app. split; [exact H|]. constructor; [|constructor].
  split; [exact Ht|]. split; [apply strip_strip | apply max_zero_nonneg].
Qed.

Lemma fold_keep_segment_usable sv raw :
  forall segments,
    Forall usable segments -> Forall usable (fold_left (keep_segment sv) raw segments).
Proof.
  induction raw as [|seg raw IH]; intros segments H; simpl; [exact H|].
  apply IH, keep_segment_usable, H.
Qed.

(** What a transcription that returns hands on. *)
Lemma _transcribe_with_whisper_usable sv audio_path w segments w' :
  _transcribe_with_whisper sv audio_path w = (Returned segments, w') ->
  segments <> [] /\ Forall usable segments /\ cache w' = cache w.
Proof.
  unfold _transcribe_with_whisper.
  destruct (truthy (strip (whisper_api_key w))); [|discriminate].
  destruct (transcription sv audio_path) as [[[|seg raw]|]|k m];
    try discriminate.
  pose proof (fold_keep_segment_usable sv (seg :: raw) [] ltac:(constructor)) as H.
  destruct (fold_left (keep_segment sv) (seg :: raw) []) as [|s l];
    [discriminate|].
  intros E. injection E as <- <-. split; [discriminate|]. split; [exact H | reflexivity].
Qed.

(** A transcription that returns has at least one segment, and each
    segment it returns has a text that is not empty and is trimmed, and a
    duration that is not negative, whatever the response held. *)
Theorem _transcribe_with_whisper_segments sv audio_path w segments w' :
  _transcribe_with_whisper sv audio_path w = (Returned segments, w') ->
  segments <> []
  /\ Forall (fun seg => text seg <> "" /\ strip (text seg) = text seg
                        /\ (0 <= duration seg)%Q) segments.
Proof.
  intros H. apply _transcribe_with_whisper_usable in H.
  destruct H as (Hne & Hall & _). split; [exact Hne|].
  eapply Forall_impl; [exact Hall|]. cbn. intros seg (Ht & Hs & Hd).
  split; [|split; assumption]. intros E. rewrite E in Ht. discriminate.
Qed.

Lemma _transcribe_with_whisper_segments_witness :
  exists segments w',
    _transcribe_with_whisper zoo_services "data/jNQXAC9IVRw.m4a" empty_cache
    = (Returned segments, w')
    /\ length segments = 2
    /\ Forall (fun seg => text seg <> "" /\ strip (text seg) = text seg
                          /\ (0 <= duration seg)%Q) segments.
Proof.
  eexists _, _.
  assert (H : _transcribe_with_whisper zoo_services "data/jNQXAC9IVRw.m4a" empty_cache
              = (Returned [ {| text := "elephants have trunks"; start := 1; duration := 3 |};
                            {| text := "trunks are strong"; start := 5; duration := 0 |} ],
                 record_fetch (Transcribe "data/jNQXAC9IVRw.m4a") empty_cache))
    by (vm_compute; reflexivity).
  split; [exact H|]. split; [reflexivity|].
  exact (proj2 (_transcribe_with_whisper_segments _ _ _ _ _ H)).
Defined.

(** At least one chunk, when some segment has text and the target is at
    least one word. *)
Lemma build_chunks_some_chunk transcript target_words overlap_words :
  (1 <= target_words)%Z ->
  Exists (fun seg => truthy (seg_text seg) = true) (tr_segments transcript) ->
  build_chunks transcript target_words overlap_words <> [].
Proof.
  intros Ht Hex.
  destruct (build_chunks_loop transcript target_words overlap_words)
    as [[Hnil _] | H]; [rewrite Hnil in Hex; inversion Hex|].
  destruct (tr_segments transcript) as [|seg segs] eqn:Hsegs; [inversion Hex|].
  cbn [chunk_loop] in H.
  replace (0 <? length (seg :: segs)) with true in H by reflexivity.
  rewrite chunk_body_eq in H by lia. cbn [mbind option_bind] in H.
  unfold pass in H.
  destruct (take_chunk target_words (drop 0 (seg :: segs)) (0, [], 0%Z))
    as [[i1 chunk] wc] eqn:Htake.
  apply take_chunk_nonempty in Htake; [|lia|exact Hex].
  destruct chunk as [|c chunk]; [congruence|].
  apply chunk_loop_output in H; [|lia].
  destruct H as (more & -> & _). discriminate.
Qed.

(** What the transcription returns can always be chunked: for every
    target of at least one word, [build_chunks] gives at least one chunk
    for a transcript with these segments. *)
Theorem transcribed_segments_chunk sv audio_path w segments w'
    vid title u target_words overlap_words :
  _transcribe_with_whisper sv audio_path w = (Returned segments, w') ->
  (1 <= target_words)%Z ->
  build_chunks {| tr_video_id := vid; tr_title := title; tr_url := u;
                  tr_segments := segments |} target_words overlap_words
  <> [].
Proof.
  intros H Ht. apply _transcribe_with_whisper_usable in H.
  destruct H as (Hne & Hall & _).
  apply build_chunks_some_chunk; [exact Ht|]. cbn [tr_segments].
  destruct segments as [|seg rest]; [congruence|].
  apply Exists_cons_hd. inversion Hall as [|? ? (Htext & Hstrip & _) _]; subst.
  unfold seg_text. now rewrite Hstrip.
Qed.

Lemma transcribed_segments_chunk_witness :
  build_chunks
    {| tr_video_id := Some "jNQXAC9IVRw"; tr_title := None; tr_url := None;
       tr_segments :=
         [ {| text := "elephants have trunks"; start := 1; duration := 3 |};
           {| text := "trunks are strong"; start := 5; duration := 0 |} ] |}
    1 0
  <> [].
Proof.
  apply (transcribed_segments_chunk zoo_services "data/jNQXAC9IVRw.m4a" empty_cache
           _ (record_fetch (Transcribe "data/jNQXAC9IVRw.m4a") empty_cache)).
  - vm_compute. reflexivity.
  - lia.
Defined.


Lemma _fetch_video_title_truthy sv canonical_url :
  truthy (strip (_fetch_video_title sv canonical_url)) = true.
Proof.
  unfold _fetch_video_title.
  destruct (video_info_title sv canonical_url) as [[title|]|k m];
    try reflexivity.
  destruct (truthy (strip title)) eqn:Ht; [exact Ht | reflexivity].
Qed.

(** The title is never blank, and it is decided by what is reported for
    the video: a reported title with visible text is returned as it is;
    when there is no such title (none reported, a blank one, or a lookup
    that fails) the title is "Untitled video". *)
Theorem _fetch_video_title_visible sv canonical_url :
  truthy (strip (_fetch_video_title sv canonical_url)) = true
  /\ (forall title,
        video_info_title sv canonical_url = Returned (Some title) ->
        truthy (strip title) = true ->
        _fetch_video_title sv canonical_url = title)
  /\ ((forall title,
         video_info_title sv canonical_url = Returned (Some title) ->
         truthy (strip title) = false) ->
      _fetch_video_title sv canonical_url = "Untitled video").
Proof.
  unfold _fetch_video_title.
  destruct (video_info_title sv canonical_url) as [[reported|]|k m].
  - destruct (truthy (strip reported)) eqn:Ht.
    + split; [exact Ht|]. split.
      * intros title E _. now injection E as <-.
      * intros Hblank. specialize (Hblank reported eq_refl). congruence.
    + split; [reflexivity|]. split; [|reflexivity].
      intros title E Htitle. injection E as <-. congruence.
  - split; [reflexivity|]. split; [discriminate | reflexivity].
  - split; [reflexivity|]. split; [discriminate | reflexivity].
Qed.

(** A write that returns has put the transcript in the file. *)
Lemma _save_cached_returned sv c video_id payload u c' :
  _save_cached sv c video_id payload = (Returned u, c') ->
  c' = <[ video_id := Stored payload ]> c.
Proof.
  unfold _save_cached.
  destruct (cache_write sv video_id payload); intros E;
    try discriminate. now injection E as _ <-.
Qed.


(** A transcript that was fetched once is served from the cache: the same
    call again returns the same result and changes nothing, so nothing is
    downloaded or transcribed again. *)
Theorem fetch_transcript_again sv youtube_url w r w' :
  fetch_transcript sv youtube_url w = (Returned r, w') ->
  fetch_transcript sv youtube_url w' = (Returned r, w').
Proof.
  unfold fetch_transcript.
  destruct (extract_video_id sv youtube_url) as [vid|k m]; [|discriminate].
  destruct (_load_cached (cache w) vid) as [cached|] eqn:Hc.
  { intros E. injection E as <- <-. now rewrite Hc. }
  destruct (_download_audio sv _ vid) as [p|k m]; [|discriminate].
  destruct (_transcribe_with_whisper sv p _) as [[segs|k m] w2]; [|discriminate].
  destruct (_save_cached sv (cache w2) vid _) as [[u|k m] c] eqn:Hs;
    [|discriminate].
  apply _save_cached_returned in Hs. subst c.
  intros E. injection E as <- <-.
  cbn [cache record_fetch set_cache]. unfold _load_cached.
  now rewrite lookup_insert_eq.
Qed.

Lemma fetch_transcript_again_witness :
  let first := fetch_transcript zoo_services "https://youtu.be/jNQXAC9IVRw" empty_cache in
  exists r, fst first = Returned r
            /\ fetch_transcript zoo_services "https://youtu.be/jNQXAC9IVRw" (snd first)
               = (Returned r, snd first).
Proof.
  cbv zeta.
  destruct (fetch_transcript zoo_services "https://youtu.be/jNQXAC9IVRw" empty_cache)
    as [[r|k m] w'] eqn:H; [|vm_compute in H; discriminate].
  exists r. split; [reflexivity|].
  exact (fetch_transcript_again zoo_services _ empty_cache r w' H).
Defined.




(** A transcript that was not in the cache comes back complete: under the
    id extracted from the url, with the canonical watch url of that id, a
    title with visible text, the source "whisper", and at least one
    segment, each with trimmed text and a duration that is not negative;
    and it is in the cache under that id afterwards. *)
Theorem fetch_transcript_fresh sv youtube_url w r w' :
  fetch_transcript sv youtube_url w = (Returned r, w') ->
  fetch_calls w' <> fetch_calls w ->
  exists video_id title,
    extract_video_id sv youtube_url = Returned video_id
    /\ tr_video_id (fetched r) = Some video_id
    /\ tr_url (fetched r) = Some ("https://www.youtube.com/watch?v=" +:+ video_id)
    /\ tr_title (fetched r) = Some title /\ truthy (strip title) = true
    /\ source r = Some "whisper"
    /\ tr_segments (fetched r) <> []
    /\ Forall usable (tr_segments (fetched r))
    /\ cache w' !! video_id = Some (Stored r).
Proof.
  unfold fetch_transcript.
  destruct (extract_video_id sv youtube_url) as [vid|k m]; [|discriminate].
  destruct (_load_cached (cache w) vid) as [cached|].
  { intros E. injection E as <- <-. congruence. }
  destruct (_download_audio sv _ vid) as [p|k m]; [|discriminate].
  destruct (_transcribe_with_whisper sv p _) as [[segs|k m] w2] eqn:Ht;
    [|discriminate].
  apply _transcribe_with_whisper_usable in Ht. destruct Ht as (Hne & Hall & _).
  destruct (_save_cached sv (cache w2) vid _) as [[u|k m] c] eqn:Hs;
    [|discriminate].
  apply _save_cached_returned in Hs. subst c.
  intros E _. injection E as <- <-.
  exists vid, (_fetch_video_title sv ("https://www.youtube.com/watch?v=" +:+ vid)).
  cbn [fetched source tr_video_id tr_url tr_title tr_segments cache
       record_fetch set_cache].
  repeat split; try assumption.
  - apply _fetch_video_title_truthy.
  - apply lookup_insert_eq.
Qed.

Lemma fetch_transcript_fresh_witness :
  exists r w' video_id title,
    fetch_transcript zoo_services "https://youtu.be/jNQXAC9IVRw" empty_cache
    = (Returned r, w')
    /\ tr_video_id (fetched r) = Some video_id
    /\ tr_title (fetched r) = Some title
    /\ cache w' !! video_id = Some (Stored r).
Proof.
  destruct (fetch_transcript zoo_services "https://youtu.be/jNQXAC9IVRw" empty_cache)
    as [[r|k m] w'] eqn:H; [|vm_compute in H; discriminate].
  assert (Hcalls : fetch_calls w' <> fetch_calls empty_cache).
  { vm_compute in H. injection H as _ <-. discriminate. }
  destruct (fetch_transcript_fresh zoo_services _ empty_cache r w' H Hcalls)
    as (video_id & title & _ & Hid & _ & Htitle & _ & _ & _ & _ & Hcache).
  exists r, w', video_id, title. repeat split; assumption.
Defined.

(* ===================================================================== *)
(** ** Timestamps *)
(* ===================================================================== *)

Lemma string_length_app (x y : string) :
  String.length (x +:+ y) = String.length x + String.length y.
Proof. induction x as [|c x IH]; simpl; [reflexivity | now rewrite IH]. Qed.

Lemma string_app_inj (x x' y y' : string) :
  String.length x = String.length x' ->
  x +:+ y = x' +:+ y' -> x = x' /\ y = y'.
Proof.
  revert x'. induction x as [|c x IH]; intros [|c' x'] Hlen H;
    simpl in Hlen; try discriminate.
  - now split.
  - simpl in H. injection H as -> H. injection Hlen as Hlen.
    destruct (IH x' Hlen H) as [-> ->]. now split.
Qed.

Lemma decimal_inj a b : decimal a = decimal b -> a = b.
Proof.
  unfold decimal. intros H.
  apply (f_equal NilEmpty.uint_of_string) in H. rewrite !NilEmpty.usu in H.
  injection H as H. apply (f_equal Nat.of_uint) in H.
  now rewrite !Unsigned.of_to in H.
Qed.

(** Minutes and seconds take two characters each. *)
Lemma pad2_length n : n < 60 -> String.length (pad2 n) = 2.
Proof.
  intros H.
  assert (Hall : forallb (fun k => String.length (pad2 k) =? 2) (seq 0 60) = true)
    by (vm_compute; reflexivity).
  rewrite forallb_forall in Hall. apply Nat.eqb_eq, Hall, in_seq. lia.
Qed.

Lemma pad2_inj a b : a < 60 -> b < 60 -> pad2 a = pad2 b -> a = b.
Proof.
  intros Ha Hb H.
  assert (Hall : forallb (fun x =>
                            forallb (fun y =>
                                       implb (String.eqb (pad2 x) (pad2 y)) (x =? y))
                              (seq 0 60)) (seq 0 60) = true)
    by (vm_compute; reflexivity).
  rewrite forallb_forall in Hall.
  specialize (Hall a ltac:(apply in_seq; lia)).
  rewrite forallb_forall in Hall.
  specialize (Hall b ltac:(apply in_seq; lia)).
  rewrite H, String.eqb_refl in Hall. simpl in Hall. now apply Nat.eqb_eq.
Qed.

(** The parts of a time: hours, minutes below 60, seconds below 60. *)
Lemma time_parts s :
  (s mod 3600) / 60 < 60 /\ s mod 60 < 60
  /\ s = s / 3600 * 3600 + (s mod 3600) / 60 * 60 + s mod 60.
Proof.
  pose proof (Nat.div_mod_eq s 3600) as H1.
  pose proof (Nat.mod_upper_bound s 3600 ltac:(lia)) as H2.
  pose proof (Nat.div_mod_eq (s mod 3600) 60) as H3.
  pose proof (Nat.mod_upper_bound (s mod 3600) 60 ltac:(lia)) as H4.
  pose proof (Nat.mod_upper_bound s 60 ltac:(lia)) as H5.
  assert (H6 : (s mod 3600) mod 60 = s mod 60).
  { change 3600 with (60 * 60). rewrite Nat.Div0.mod_mul_r.
    rewrite (Nat.mul_comm 60 ((s / 60) mod 60)), Nat.Div0.mod_add.
    apply Nat.Div0.mod_mod. }
  split; [|split; [exact H5|]].
  - apply Nat.Div0.div_lt_upper_bound. lia.
  - lia.
Qed.

(** Two times are written alike only if they are the same time, once
    times below zero are taken as zero: the text names the time. *)
Theorem _format_timestamp_names_time a b :
  _format_timestamp a = _format_timestamp b <-> Z.max 0 a = Z.max 0 b.
Proof.
  split; [|unfold _format_timestamp; now intros ->].
  intros H. apply Z2Nat.inj; [lia | lia|].
  revert H. unfold _format_timestamp.
  generalize (Z.to_nat (Z.max 0 a)) (Z.to_nat (Z.max 0 b)). clear a b.
  intros s t.
  destruct (time_parts s) as (Hm & Hs & Hsum).
  destruct (time_parts t) as (Hm' & Hs' & Hsum').
  generalize dependent (s / 3600). generalize dependent ((s mod 3600) / 60).
  generalize dependent (s mod 60). intros sec Hs m Hm h Hsum.
  generalize dependent (t / 3600). generalize dependent ((t mod 3600) / 60).
  generalize dependent (t mod 60). intros sec' Hs' m' Hm' h' Hsum'.
  pose proof (pad2_length _ Hm) as Lm. pose proof (pad2_length _ Hs) as Ls.
  pose proof (pad2_length _ Hm') as Lm'. pose proof (pad2_length _ Hs') as Ls'.
  assert (Hshort : forall x y,
             x < 60 -> y < 60 -> String.length (pad2 x +:+ ":" +:+ pad2 y) = 5).
  { intros x y Hx Hy. rewrite !string_length_app, !pad2_length by assumption.
    reflexivity. }
  assert (Htail : forall x y x' y',
             x < 60 -> y < 60 -> x' < 60 -> y' < 60 ->
             pad2 x +:+ ":" +:+ pad2 y = pad2 x' +:+ ":" +:+ pad2 y' ->
             x = x' /\ y = y').
  { intros x y x' y' Hx Hy Hx' Hy' E.
    apply string_app_inj in E; [|now rewrite !pad2_length].
    destruct E as [E1 E2]. cbn [String.append] in E2. injection E2 as E2.
    split; eapply pad2_inj; eassumption. }
  destruct (0 <? h) eqn:Hh, (0 <? h') eqn:Hh'; intros E.
  - assert (Hlen : String.length (decimal h) = String.length (decimal h')).
    { apply (f_equal String.length) in E. rewrite !string_length_app in E.
      rewrite Lm, Ls, Lm', Ls' in E. cbn [String.length] in E. lia. }
    apply string_app_inj in E; [|exact Hlen]. destruct E as [E1 E2].
    apply decimal_inj in E1. cbn [String.append] in E2. injection E2 as E2.
    apply Htail in E2; try assumption. destruct E2 as [E2 E3]. lia.
  - apply (f_equal String.length) in E. rewrite (Hshort _ _ Hm' Hs') in E.
    rewrite !string_length_app in E. rewrite Lm, Ls in E. cbn [String.length] in E. lia.
  - apply (f_equal String.length) in E. rewrite (Hshort _ _ Hm Hs) in E.
    rewrite !string_length_app in E. rewrite Lm', Ls' in E. cbn [String.length] in E. lia.
  - apply Htail in E; try assumption. destruct E as [E1 E2].
    apply Nat.ltb_ge in Hh, Hh'. lia.
Qed.

(** The missing credential is reported in the same words on both paths:
    [index_documents] raises it for every batch that is not empty, before
    any lookup or write, and [ask] returns it as the answer. *)
Theorem missing_key_message env document documents db sv question session_id w :
  all_space (embed_api_key env) = true ->
  all_space (OPENAI_API_KEY w) = true ->
  truthy (strip question) = true ->
  exists msg,
    index_documents env (document :: documents) db = Raised "RuntimeError" msg
    /\ fst (ask sv question session_id w) = Returned msg.
Proof.
  intros He Hw Hq. eexists. unfold index_documents, ask.
  rewrite (strip_all_space _ He), (strip_all_space _ Hw), Hq.
  split; reflexivity.
Qed.

Lemma missing_key_message_witness :
  exists msg,
    index_documents {| embed_api_key := ""; lookup_raises := fun _ => false |}
      zoo_batch [] = Raised "RuntimeError" msg
    /\ fst (ask answering "what do elephants have?" "s1" no_key_world) = Returned msg.
Proof.
  apply (missing_key_message {| embed_api_key := ""; lookup_raises := fun _ => false |}
           (chunk_of "jNQXAC9IVRw" "elephants have trunks")
           [chunk_of "jNQXAC9IVRw" "trunks are strong"] []
           answering "what do elephants have?" "s1" no_key_world); reflexivity.
Defined.
